(** * sally: the path tree ([path_tree.go])

    A shallow embedding of [pathTree] and [pathTreeNode] of [path_tree.go],
    the structure that maps [/]-separated import paths to values with
    cascading lookup, together with the properties of its three operations
    [Set] (the specification's Assign), [Lookup] and [ListByPath].

    Conventions of the embedding:
    - a Go [string] is a [string] (a sequence of bytes); [len] is [Z]-valued
      like Go's [int];
    - a Go slice expression [s[:i]] or [s[i:]] panics when [i] is out of
      range, so slicing returns in the [res] type below;
    - a pointer [*pathTreeNode] that may be [nil] is an [option]; the tree is
      owned (no node is shared), so the in-place updates of [set] become the
      rebuilding of the nodes on the walked branch;
    - [map[string]*pathTreeNode] is a [gmap]; a [nil] children map and an
      empty one behave alike under every operation of the file and are both
      the empty [gmap]; the iteration order of [range] over a map is not
      specified by Go and is a parameter of the development;
    - loops run on a recursion budget ([fuel]); a loop that exhausts it ends
      in [OutOfFuel], which the theorems below show never to happen for the
      budget the operations are run with. *)

From Stdlib Require Import ZArith String Ascii Lia.
From stdpp Require Import base option list gmap strings.

Local Open Scope Z_scope.

(** ** Outcomes of a run *)

Inductive res (A : Type) : Type :=
  | Done (a : A)
  | Panic
  | OutOfFuel.
Arguments Done {A} a.
Arguments Panic {A}.
Arguments OutOfFuel {A}.

#[global] Instance res_ret : MRet res := λ A a, Done a.
#[global] Instance res_bind : MBind res := λ A B f m,
  match m with
  | Done a => f a
  | Panic => Panic
  | OutOfFuel => OutOfFuel
  end.

(** ** Go strings *)

Module GoString.

Definition len (s : string) : Z := Z.of_nat (String.length s).

Fixpoint take (n : nat) (s : string) : string :=
  match n, s with
  | S n', String c s' => String c (take n' s')
  | _, _ => EmptyString
  end.

Fixpoint drop (n : nat) (s : string) : string :=
  match n, s with
  | S n', String _ s' => drop n' s'
  | _, _ => s
  end.

(** [s[:hi]] *)
Definition slice_to (s : string) (hi : Z) : res string :=
  if (0 <=? hi) && (hi <=? len s) then Done (take (Z.to_nat hi) s) else Panic.

(** [s[lo:]] *)
Definition slice_from (s : string) (lo : Z) : res string :=
  if (0 <=? lo) && (lo <=? len s) then Done (drop (Z.to_nat lo) s) else Panic.

(** [strings.IndexByte]: index of the first [c] in [s], or [-1]. *)
Fixpoint IndexByte (s : string) (c : ascii) : Z :=
  match s with
  | EmptyString => -1
  | String a s' =>
      if Ascii.eqb a c then 0
      else let i := IndexByte s' c in if i <? 0 then -1 else i + 1
  end.

(** [strings.HasPrefix] *)
Definition HasPrefix (s pre : string) : bool := String.prefix pre s.

(** Go's [int] is 64 bits wide on the platforms sally is built for. *)
Definition wrap_int (z : Z) : Z := (z + 2 ^ 63) mod 2 ^ 64 - 2 ^ 63.

End GoString.
Import GoString.

Definition slash : ascii := "/"%char.

(** The byte [/] and where it first occurs. *)

Fixpoint has_slash (s : string) : bool :=
  match s with
  | EmptyString => false
  | String c s' => if Ascii.eqb c slash then true else has_slash s'
  end.

Definition is_prefix (a s : string) : Prop := ∃ r, s = a +:+ r.

(** ** [pathTakeFirst] *)

Definition pathTakeFirst (p : string) : res (string * string) :=
  let idx := IndexByte p slash in
  if 0 <=? idx then
    head ← slice_to p idx;
    tail ← slice_from p (idx + 1);
    Done (head, tail)
  else Done (p, EmptyString).

(** The first component of [p] and what follows its separator: the values
    [pathTakeFirst] computes, without the bounds checks of the slices. *)
Fixpoint split_first (p : string) : string * string :=
  match p with
  | EmptyString => (EmptyString, EmptyString)
  | String c p' =>
      if Ascii.eqb c slash then (EmptyString, p')
      else (String c (split_first p').1, (split_first p').2)
  end.

(** The components a traversal loop consumes from [p]: it takes the first
    component and goes on with the rest for as long as the rest is not empty. *)
Fixpoint components_loop (fuel : nat) (p : string) : list string :=
  match p, fuel with
  | EmptyString, _ => []
  | _, O => []
  | _, S fuel' => (split_first p).1 :: components_loop fuel' (split_first p).2
  end.

Definition components (p : string) : list string :=
  components_loop (String.length p) p.

(** [strings.Join(cs, "/")] *)
Fixpoint join (cs : list string) : string :=
  match cs with
  | [] => EmptyString
  | c :: cs' =>
      match cs' with
      | [] => c
      | _ => c +:+ String slash (join cs')
      end
  end.

(** The update of [curPathLen] in one iteration of [set], and its value
    after the components [cs]. *)
Definition advance (cur : Z) (head : string) : Z :=
  (if 0 <? cur then cur + 1 else cur) + len head.

Definition curLen_from (cur : Z) (cs : list string) : Z := foldl advance cur cs.

(** The [path] field [set] gives the node it creates below the components
    [cs]. *)
Definition node_path (cs : list string) : string :=
  take (Z.to_nat (curLen_from 0 cs)) (join cs).

Definition starts_with_slash (p : string) : bool :=
  match p with
  | String c _ => Ascii.eqb c slash
  | EmptyString => false
  end.

Fixpoint ends_with_slash (p : string) : bool :=
  match p with
  | EmptyString => false
  | String c EmptyString => Ascii.eqb c slash
  | String _ p' => ends_with_slash p'
  end.

(** ** Splitting, as the specification words it

    [split_slash] is [strings.Split(s, "/")]: every separator delimits a
    component and no empty component is collapsed. *)
Fixpoint split_slash (s : string) : list string :=
  match s with
  | EmptyString => [EmptyString]
  | String c s' =>
      if Ascii.eqb c slash then EmptyString :: split_slash s'
      else match split_slash s' with
           | h :: t => String c h :: t
           | [] => [String c EmptyString]
           end
  end.

(** The components of a non-empty path, short of the empty component that
    follows a trailing separator. *)
Definition spec_components (p : string) : list string :=
  match p with
  | EmptyString => []
  | _ => if ends_with_slash p then removelast (split_slash p) else split_slash p
  end.

Section PathTree.

Context {T : Type}.
(** The zero value of [T], which [Lookup] returns when nothing is found. *)
Variable zero : T.

(** ** [pathTreeNode] and [pathTree] *)

#[warnings="-register-all"]
Inductive pathTreeNode : Type := mkNode {
  name : string;
  path : string;
  value : option T;
  children : gmap string pathTreeNode
}.

Record pathTree : Type := mkTree {
  root : pathTreeNode;
  countHint : Z
}.

(** The zero value of [pathTree]. *)
Definition zeroNode : pathTreeNode := mkNode EmptyString EmptyString None ∅.
Definition zeroTree : pathTree := mkTree zeroNode 0.

(** The order in which [range] visits the entries of a map. *)
Variable range : gmap string pathTreeNode → list (string * pathTreeNode).

(** ** [pathTreeNode.set]

    [path0] is the variable [path] of the source, whose name the field has
    here. An iteration consumes at least one byte of it, so the length of
    the path is budget enough. *)

Fixpoint set_loop (fuel : nat) (origPath : string) (curPathLen : Z)
    (n : pathTreeNode) (path0 : string) (v : T) : res pathTreeNode :=
  if 0 <? len path0 then
    match fuel with
    | O => OutOfFuel
    | S fuel' =>
        '(head, tail) ← pathTakeFirst path0;
        let curPathLen := if 0 <? curPathLen then curPathLen + 1 else curPathLen in
        let curPathLen := curPathLen + len head in
        ch ← match children n !! head with
             | Some ch => Done ch
             | None =>
                 p ← slice_to origPath curPathLen;
                 Done (mkNode head p None ∅)
             end;
        ch' ← set_loop fuel' origPath curPathLen ch tail v;
        Done (mkNode (name n) (path n) (value n) (<[head := ch']> (children n)))
    end
  else Done (mkNode (name n) (path n) (Some v) (children n)).

Definition set (n : pathTreeNode) (path0 : string) (v : T) : res pathTreeNode :=
  set_loop (String.length path0) path0 0 n path0 v.

(** ** [pathTree.Set]

    [Set] is a reserved word here, hence the underscore. *)

Definition Set_ (t : pathTree) (path0 : string) (v : T) : res pathTree :=
  let hint := wrap_int (countHint t + 1) in
  r ← set (root t) path0 v;
  Done (mkTree r hint).

(** ** [pathTreeNode.lookup] *)

Fixpoint lookup_loop (fuel : nat) (n : option pathTreeNode) (path0 : string)
    (last : option pathTreeNode) : res (option pathTreeNode) :=
  match n with
  | None => Done last
  | Some n =>
      let last := match value n with Some _ => Some n | None => last end in
      if len path0 =? 0 then Done last
      else
        match fuel with
        | O => OutOfFuel
        | S fuel' =>
            '(head, tail) ← pathTakeFirst path0;
            lookup_loop fuel' (children n !! head) tail last
        end
  end.

Definition lookup (n : pathTreeNode) (path0 : string) : res (option pathTreeNode) :=
  lookup_loop (String.length path0) (Some n) path0 None.

(** ** [pathTree.Lookup] *)

Definition Lookup (t : pathTree) (path0 : string) : res (string * T * bool) :=
  n ← lookup (root t) path0;
  match n with
  | None => Done (EmptyString, zero, false)
  | Some n =>
      match value n with
      | None => Done (EmptyString, zero, false)
      | Some v => Done (path n, v, true)
      end
  end.

(** ** [pathTreeNode.get] *)

Fixpoint get_loop (fuel : nat) (n : option pathTreeNode) (path0 : string)
    : res (option pathTreeNode) :=
  match n with
  | None => Done None
  | Some n =>
      if 0 <? len path0 then
        match fuel with
        | O => OutOfFuel
        | S fuel' =>
            '(head, tail) ← pathTakeFirst path0;
            get_loop fuel' (children n !! head) tail
        end
      else Done (Some n)
  end.

Definition get (n : pathTreeNode) (path0 : string) : res (option pathTreeNode) :=
  get_loop (String.length path0) (Some n) path0.

(** ** [pathTreeNode.listByPath] *)

(** The number of nodes of a subtree: the budget of the enumeration. *)
Fixpoint node_size (n : pathTreeNode) : nat :=
  S (map_fold (λ _ ch acc, (node_size ch + acc)%nat) 0%nat (children n)).

(** [next] is the Go slice used as a stack: its top is its last element. *)
Fixpoint listByPath_loop (fuel : nat) (next : list pathTreeNode)
    (items : gmap string T) : res (gmap string T) :=
  match last next with
  | None => Done items
  | Some n =>
      match fuel with
      | O => OutOfFuel
      | S fuel' =>
          let next := removelast next in
          let items :=
            match value n with
            | Some v => <[path n := v]> items
            | None => items
            end in
          let next := foldl (λ nx kv, nx ++ [kv.2]) next (range (children n)) in
          listByPath_loop fuel' next items
      end
  end.

Definition listByPath (n : pathTreeNode) (items : gmap string T)
    : res (gmap string T) :=
  listByPath_loop (node_size n) [n] items.

(** ** [pathTree.ListByPath]

    The result is a Go map, which is [nil] ([None]) when no node is found.
    [countHint] is only the size hint of [make], which for a map has no
    effect on its contents and is harmless whatever its value. *)

Definition ListByPath (t : pathTree) (path0 : string)
    : res (option (gmap string T)) :=
  n ← (if String.eqb path0 EmptyString then Done (Some (root t))
       else get (root t) path0);
  match n with
  | None => Done None
  | Some n =>
      items ← listByPath n ∅;
      Done (Some items)
  end.

(** ** Positions in the tree

    The node below [n] along the component names [cs], the nodes a walk
    along [cs] visits, and the explicit value found there. *)

Fixpoint descend (n : pathTreeNode) (cs : list string) : option pathTreeNode :=
  match cs with
  | [] => Some n
  | c :: cs' =>
      match children n !! c with
      | Some ch => descend ch cs'
      | None => None
      end
  end.

Definition explicit (n : pathTreeNode) (cs : list string) : option T :=
  descend n cs ≫= value.

Fixpoint visited (n : pathTreeNode) (cs : list string) : list pathTreeNode :=
  n :: match cs with
       | [] => []
       | c :: cs' =>
           match children n !! c with
           | Some ch => visited ch cs'
           | None => []
           end
       end.

Definition has_value (n : pathTreeNode) : bool :=
  match value n with Some _ => true | None => false end.

(** The deepest of the nodes [l], listed from the root down, that carries a
    value. *)
Definition best_match (l : list pathTreeNode) : option pathTreeNode :=
  last (filter (λ n, has_value n = true) l).

(** [set] along the components [cs], with every slice taken as in range. *)
Fixpoint set_at (origPath : string) (cur : Z) (n : pathTreeNode)
    (cs : list string) (v : T) : pathTreeNode :=
  match cs with
  | [] => mkNode (name n) (path n) (Some v) (children n)
  | c :: cs' =>
      let cur' := advance cur c in
      let ch := match children n !! c with
                | Some ch => ch
                | None => mkNode c (take (Z.to_nat cur') origPath) None ∅
                end in
      mkNode (name n) (path n) (value n)
        (<[c := set_at origPath cur' ch cs' v]> (children n))
  end.

(** [m], found below the prefix [cs'] of [cs], is the deepest node along
    [cs] that carries a value. *)
Definition is_best (n : pathTreeNode) (cs cs' : list string)
    (m : pathTreeNode) : Prop :=
  cs' `prefix_of` cs ∧ descend n cs' = Some m ∧ has_value m = true ∧
  ∀ cs'', cs'' `prefix_of` cs → (length cs' < length cs'')%nat →
          explicit n cs'' = None.

(** What [Lookup] reports of a node. *)
Definition report (m : pathTreeNode) : option (string * T) :=
  v ← value m; Some (path m, v).

(** What [lookup] retains of the nodes [l] it visits: the [path] field and
    the value of each one that carries a value, in the order of the visit. *)
Definition recorded (l : list pathTreeNode) : list (string * T) :=
  omap report l.

(** ** The walk of [Lookup], as the specification words it

    From the node [n], reached by the components [pre], along the
    components [cs]: every visited node that carries an explicit value is
    recorded as the current best match, under its full path, which is the
    components that lead to it joined by separators; a later match
    overwrites an earlier one, and the walk stops where a component has no
    child. The fields [name] and [path] of the nodes are not read. *)

Fixpoint walk_matches (n : pathTreeNode) (pre cs : list string)
    : list (string * T) :=
  match value n with
  | Some v => [(join pre, v)]
  | None => []
  end ++
  match cs with
  | [] => []
  | c :: cs' =>
      match children n !! c with
      | Some ch => walk_matches ch (pre ++ [c]) cs'
      | None => []
      end
  end.

Definition Lookup_walk (t : pathTree) (p : string) : string * T * bool :=
  match last (walk_matches (root t) [] (components p)) with
  | Some (q, v) => (q, v, true)
  | None => (EmptyString, zero, false)
  end.

(** ** Invariants of the trees [Set] builds *)

Definition paths_ok (n : pathTreeNode) : Prop :=
  ∀ cs m, descend n cs = Some m → path m = node_path cs.

Definition names_ok (n : pathTreeNode) : Prop :=
  ∀ cs m, descend n cs = Some m → cs ≠ [] → last cs = Some (name m).

(** [m] is a node of the subtree rooted at [n]. *)
Definition in_subtree (n m : pathTreeNode) : Prop :=
  ∃ cs, descend n cs = Some m.

(** [m] is a node below one of the nodes waiting on the stack. *)
Definition in_stack (next : list pathTreeNode) (m : pathTreeNode) : Prop :=
  ∃ n, n ∈ next ∧ in_subtree n m.

(** The number of nodes the enumeration has yet to visit. *)
Definition stack_size (next : list pathTreeNode) : nat :=
  sum_list_with node_size next.

(** ** Sequences of assignments *)

Definition Assigns (ops : list (string * T)) : res pathTree :=
  foldl (λ r kv, t ← r; Set_ t kv.1 kv.2) (Done zeroTree) ops.

(** The assigned paths with the value last assigned at each. *)
Definition items_of (ops : list (string * T)) : gmap string T :=
  foldl (λ m kv, <[kv.1 := kv.2]> m) ∅ ops.

(** No assigned path ends with a separator. *)
Definition keys_canonical (ops : list (string * T)) : bool :=
  forallb (λ kv, negb (ends_with_slash kv.1)) ops.

(** The same, keyed by the components of the paths. *)
Definition assigned (ops : list (string * T)) : gmap (list string) T :=
  foldl (λ m kv, <[components kv.1 := kv.2]> m) ∅ ops.

End PathTree.

Arguments pathTreeNode T : clear implicits.
Arguments pathTree T : clear implicits.

(** ** Instances used in the examples

    Values are integers, as in [path_tree_test.go]; the iteration order is
    the one in which the map enumerates its entries. *)

Definition range_enum (m : gmap string (pathTreeNode Z))
    : list (string * pathTreeNode Z) :=
  map_to_list m.

(** Another admissible order: the same entries, last to first. *)
Definition range_enum_rev (m : gmap string (pathTreeNode Z))
    : list (string * pathTreeNode Z) :=
  reverse (map_to_list m).

Definition tree_of (ops : list (string * Z)) : pathTree Z :=
  match Assigns ops with
  | Done t => t
  | _ => zeroTree
  end.

(** The tree of [TestPathTree_simple]. *)
Definition simple_ops : list (string * Z) :=
  [("foo"%string, 10); ("foo/bar"%string, 20); ("bar"%string, 30)].
Definition simple_tree : pathTree Z := Eval vm_compute in tree_of simple_ops.




(** * Assignments in the abstract

    What a sequence of assignments amounts to, apart from the tree: the
    deepest assigned prefix of a list of components, and the assigned paths
    at or below a path. *)

Section Abstract.

Context {T : Type}.

(** The longest of the lists [pre], [pre ++ [c1]], ..., [pre ++ cs] that has
    a value in [M], with that value. *)
Fixpoint longest_assigned (M : gmap (list string) T) (pre cs : list string)
    : option (list string * T) :=
  match cs with
  | [] => (λ v, (pre, v)) <$> M !! pre
  | c :: cs' =>
      match longest_assigned M (pre ++ [c]) cs' with
      | Some r => Some r
      | None => (λ v, (pre, v)) <$> M !! pre
      end
  end.

(** The tree [Set] returns, which it always does. *)
Definition Set_result (t : pathTree T) (p : string) (v : T) : pathTree T :=
  mkTree (set_at p 0 (root t) (components p) v) (wrap_int (countHint t + 1)).

(** A sequence of assignments on a tree that is there already. *)
Definition Assigns_from (t : pathTree T) (ops : list (string * T))
    : res (pathTree T) :=
  foldl (λ r kv, t ← r; Set_ t kv.1 kv.2) (Done t) ops.

(** No assigned path begins with a separator. *)
Definition keys_relative (ops : list (string * T)) : bool :=
  forallb (λ kv, negb (starts_with_slash kv.1)) ops.

End Abstract.

(** [p == path || strings.HasPrefix(p, path+"/")], the test of
    [ListKnown] in [path_tree_test.go]. *)
Definition at_or_below (path0 p : string) : bool :=
  String.eqb p path0 || HasPrefix p (path0 +:+ "/").

(** * The configuration ([config.go]) and the handler ([handler.go]) *)

(** ** More of Go's [strings] *)

(** [strings.TrimPrefix] *)
Definition TrimPrefix (s pre : string) : string :=
  if HasPrefix s pre then drop (String.length pre) s else s.

(** [strings.HasSuffix] *)
Definition HasSuffix (s suf : string) : bool :=
  (String.length suf <=? String.length s)%nat &&
  String.eqb (drop (String.length s - String.length suf) s) suf.

(** [strings.TrimSuffix] *)
Definition TrimSuffix (s suf : string) : string :=
  if HasSuffix s suf then take (String.length s - String.length suf) s else s.

(** ** [Package], [GodocConfig] and [Config] *)

Module Package.
Record t : Type := mk {
  Repo : string;
  Branch : string;
  URL : string;
  Desc : string
}.
(** The zero value. *)
Definition zero : t := mk EmptyString EmptyString EmptyString EmptyString.
End Package.

Module GodocConfig.
Record t : Type := mk { Host : string }.
Definition empty (gc : t) : bool := String.eqb (Host gc) EmptyString.
End GodocConfig.

Module Config.
Record t : Type := mk {
  URL : string;
  Packages : gmap string Package.t;
  Godoc : GodocConfig.t
}.
End Config.

Definition _defaultGodocServer : string := "pkg.go.dev".
Definition _defaultBranch : string := "master".

(** ** [Parse]

    Reading the file and decoding the YAML are not of this repository:
    [ReadFile] and [Unmarshal], which decodes into a zero [Config], are
    parameters, each returning its result or an error. The result of
    [Parse] is Go's pair of a pointer, [nil] on failure, and an error. *)

Section Parse.

Variable ReadFile : string → string + string.
Variable Unmarshal : string → Config.t + string.
Variable rangePackages :
  gmap string Package.t → list (string * Package.t).

(** The host of the godoc server, as [Parse] settles it. *)
Definition parse_host (host : string) : string :=
  if String.eqb host EmptyString then _defaultGodocServer
  else
    let host := TrimPrefix host "https://" in
    let host := TrimPrefix host "http://" in
    let host := TrimSuffix host "/" in
    host.

(** The loop that sets the default branch, writing into the map it ranges
    over. *)
Definition parse_branches (pkgs : gmap string Package.t)
    : gmap string Package.t :=
  foldl (λ acc vp,
           let p := vp.2 in
           if String.eqb (Package.Branch p) EmptyString then
             <[vp.1 := Package.mk (Package.Repo p) _defaultBranch
                         (Package.URL p) (Package.Desc p)]> acc
           else acc)
        pkgs (rangePackages pkgs).

Definition Parse (path0 : string) : option Config.t * option string :=
  match ReadFile path0 with
  | inr err => (None, Some err)
  | inl data =>
      match Unmarshal data with
      | inr err => (None, Some err)
      | inl c =>
          let godoc := GodocConfig.mk (parse_host (GodocConfig.Host (Config.Godoc c))) in
          let pkgs := parse_branches (Config.Packages c) in
          (Some (Config.mk (Config.URL c) pkgs godoc), None)
      end
  end.

End Parse.

(** The branch a package has after [Parse]. *)
Definition with_default_branch (p : Package.t) : Package.t :=
  if String.eqb (Package.Branch p) EmptyString then
    Package.mk (Package.Repo p) _defaultBranch (Package.URL p) (Package.Desc p)
  else p.

(** ** [sallyHandler], [CreateHandler] and [ServeHTTP]

    Of a request the handler reads the method and the path of the URL. What
    it does to the response writer is the list of its calls: [http.NotFound],
    the execution of one of the two templates on the data it has put
    together, and [http.Error] when the template returns an error. The
    templates are parameters: each returns its error, if any. *)

Record sallyHandler : Type := mkHandler {
  config : Config.t;
  packages : pathTree Package.t
}.

Record Request : Type := mkRequest {
  Method : string;
  URLPath : string
}.

Definition MethodGet : string := "GET".

Record IndexData : Type := mkIndexData {
  index_URL : string;
  index_Packages : option (gmap string Package.t);
  index_GodocHost : string
}.

Record PackageData : Type := mkPackageData {
  data_Repo : string;
  data_Branch : string;
  data_CanonicalURL : string;
  data_GodocURL : string
}.

Inductive call : Type :=
  | NotFound
  | ExecuteIndex (data : IndexData)
  | ExecutePackage (data : PackageData)
  | HttpError (msg : string) (code : Z).

(** [len] of a Go map, [nil] or not. *)
Definition map_len {A} (m : option (gmap string A)) : Z :=
  match m with
  | None => 0
  | Some m => Z.of_nat (size m)
  end.

(** The entries of a Go map, [nil] or not. *)
Definition map_entries {A} (m : option (gmap string A)) : gmap string A :=
  default ∅ m.

Section Handler.

Variable range :
  gmap string (pathTreeNode Package.t) → list (string * pathTreeNode Package.t).
Variable rangePackages :
  gmap string Package.t → list (string * Package.t).
Variable indexTemplate : IndexData → option string.
Variable packageTemplate : PackageData → option string.

Definition CreateHandler (cfg : Config.t) : res sallyHandler :=
  pkgs ← foldl (λ r np, t ← r; Set_ t np.1 np.2) (Done zeroTree)
         (rangePackages (Config.Packages cfg));
  Done (mkHandler cfg pkgs).

Definition ServeHTTP (h : sallyHandler) (r : Request) : res (list call) :=
  let path0 := TrimPrefix (URLPath r) "/" in
  '(pkgName, pkg, ok) ← Lookup Package.zero (packages h) path0;
  if negb ok then
    pkgs ← ListByPath range (packages h) path0;
    if (map_len pkgs =? 0) && negb (String.eqb (Method r) MethodGet) then
      Done [NotFound]
    else
      let data :=
        mkIndexData (Config.URL (config h)) pkgs
          (GodocConfig.Host (Config.Godoc (config h))) in
      match indexTemplate data with
      | Some err => Done [ExecuteIndex data; HttpError err 500]
      | None => Done [ExecuteIndex data]
      end
  else
    let relPath := TrimPrefix (URLPath r) ("/" +:+ pkgName) in
    let baseURL :=
      if negb (String.eqb (Package.URL pkg) EmptyString) then Package.URL pkg
      else Config.URL (config h) in
    let canonicalURL := baseURL +:+ "/" +:+ pkgName in
    let data :=
      mkPackageData (Package.Repo pkg) (Package.Branch pkg) canonicalURL
        ("https://" +:+ GodocConfig.Host (Config.Godoc (config h)) +:+ "/"
           +:+ canonicalURL +:+ relPath) in
    match packageTemplate data with
    | Some err => Done [ExecutePackage data; HttpError err 500]
    | None => Done [ExecutePackage data]
    end.

End Handler.

(** The names the index page lists for the path [p]: all of them for the
    empty path, and otherwise those at or below [p]. *)
Definition listed_under (p name : string) : bool :=
  String.eqb p EmptyString || at_or_below p name.

(** No package name ends with a separator; none begins with one. *)
Definition names_canonical (m : gmap string Package.t) : bool :=
  forallb (λ np, negb (ends_with_slash np.1)) (map_to_list m).
Definition names_relative (m : gmap string Package.t) : bool :=
  forallb (λ np, negb (starts_with_slash np.1)) (map_to_list m).

(** ** Instances used in the examples of the configuration and the handler *)

Definition range_nodes_enum (m : gmap string (pathTreeNode Package.t))
    : list (string * pathTreeNode Package.t) :=
  map_to_list m.

Definition range_packages_enum (m : gmap string Package.t)
    : list (string * Package.t) :=
  map_to_list m.

Definition range_packages_rev (m : gmap string Package.t)
    : list (string * Package.t) :=
  reverse (map_to_list m).

Definition no_error {A} (_ : A) : option string := None.

(** A decoded configuration: three packages, one of them without a branch
    and one with a URL of its own, and no godoc host. *)
Definition zap_decoded : Package.t :=
  Package.mk "github.com/uber-go/zap" "" "" "A logging library.".
Definition metrics_decoded : Package.t :=
  Package.mk "github.com/yarpc/metrics" "main" "go.uberalt.org" "".
Definition nethttp_decoded : Package.t :=
  Package.mk "github.com/yarpc/http" "dev" "" "".

Definition example_decoded : Config.t :=
  Config.mk "go.uber.org"
    (list_to_map [("zap"%string, zap_decoded);
                  ("net/metrics"%string, metrics_decoded);
                  ("net/http"%string, nethttp_decoded)])
    (GodocConfig.mk "").

Definition example_ReadFile (path0 : string) : string + string :=
  inl "url: go.uber.org"%string.
Definition example_Unmarshal (data : string) : Config.t + string :=
  inl example_decoded.

Definition example_config : Config.t :=
  Eval vm_compute in
    match Parse example_ReadFile example_Unmarshal range_packages_enum
            "sally.yaml" with
    | (Some c, _) => c
    | _ => example_decoded
    end.

Definition example_handler : sallyHandler :=
  Eval vm_compute in
    match CreateHandler range_packages_enum example_config with
    | Done h => h
    | _ => mkHandler example_config zeroTree
    end.

Definition zap_parsed : Package.t :=
  Package.mk "github.com/uber-go/zap" "master" "" "A logging library.".

(** * Reasoning about Go strings *)

Section string_facts.

Implicit Types s p a b : string.

Lemma app_nil_l b : EmptyString +:+ b = b.
Proof. reflexivity. Qed.

Lemma app_cons c a b : String c a +:+ b = String c (a +:+ b).
Proof. reflexivity. Qed.

Lemma append_empty_r s : s +:+ EmptyString = s.
Proof. induction s as [|c s IH]; [done | by rewrite ?app_cons, IH]. Qed.

Lemma append_assoc a b s : (a +:+ b) +:+ s = a +:+ (b +:+ s).
Proof. induction a as [|c a IH]; [done | by rewrite ?app_cons, IH]. Qed.

Lemma length_append a b :
  String.length (a +:+ b) = (String.length a + String.length b)%nat.
Proof. induction a as [|c a IH]; [done | rewrite ?app_cons; simpl; by rewrite IH]. Qed.

Lemma len_nonneg s : 0 ≤ len s.
Proof. unfold len. lia. Qed.

Lemma len_append a b : len (a +:+ b) = len a + len b.
Proof. unfold len. rewrite length_append. lia. Qed.

Lemma len_zero_iff s : len s = 0 ↔ s = EmptyString.
Proof. unfold len. destruct s; simpl; split; intros; try done; lia. Qed.

Lemma take_app_le k a b :
  (k ≤ String.length a)%nat → take k (a +:+ b) = take k a.
Proof.
  revert a. induction k as [|k IH]; intros [|c a] Hk; simpl in *;
    try lia; try done.
  rewrite ?app_cons. f_equal. apply IH. lia.
Qed.

Lemma take_all s : take (String.length s) s = s.
Proof. induction s as [|c s IH]; simpl; [done | by rewrite IH]. Qed.

Lemma take_app_length a b : take (String.length a) (a +:+ b) = a.
Proof. rewrite take_app_le by lia. apply take_all. Qed.

Lemma drop_app_length a b : drop (String.length a) (a +:+ b) = b.
Proof.
  induction a as [|c a IH]; simpl; [by destruct b | by rewrite ?app_cons].
Qed.

Lemma take_drop k s : take k s +:+ drop k s = s.
Proof.
  revert s. induction k as [|k IH]; intros [|c s]; simpl; try done.
  by rewrite ?app_cons, IH.
Qed.

Lemma take_is_prefix k s : is_prefix (take k s) s.
Proof. exists (drop k s). by rewrite take_drop. Qed.

Lemma is_prefix_refl s : is_prefix s s.
Proof. exists EmptyString. by rewrite append_empty_r. Qed.

Lemma is_prefix_trans a b s : is_prefix a b → is_prefix b s → is_prefix a s.
Proof. intros [r ->] [r' ->]. exists (r +:+ r'). apply append_assoc. Qed.

Lemma is_prefix_length a s :
  is_prefix a s → (String.length a ≤ String.length s)%nat.
Proof. intros [r ->]. rewrite length_append. lia. Qed.

Lemma take_of_prefix k a s :
  is_prefix a s → (k ≤ String.length a)%nat → take k s = take k a.
Proof. intros [r ->] Hk. by apply take_app_le. Qed.

Lemma HasPrefix_true s pre : HasPrefix s pre = true ↔ is_prefix pre s.
Proof.
  unfold HasPrefix. revert s. induction pre as [|c pre IH]; intros s; simpl.
  - split; [intros _; by exists s | intros _; by destruct s].
  - destruct s as [|d s]; simpl.
    + split; [done | intros [r Hr]; by rewrite ?app_cons in Hr].
    + destruct (ascii_dec c d) as [->|Hne].
      * rewrite IH. split; intros [r Hr]; exists r; rewrite ?app_cons in *; congruence.
      * split; [done | intros [r Hr]; rewrite ?app_cons in Hr; congruence].
Qed.

Lemma IndexByte_range s c : -1 ≤ IndexByte s c < len s.
Proof.
  unfold len. induction s as [|a s IH]; simpl; [lia |].
  destruct (Ascii.eqb a c); [lia |].
  destruct (Z.ltb_spec (IndexByte s c) 0); lia.
Qed.

Lemma IndexByte_neg s : IndexByte s slash < 0 ↔ has_slash s = false.
Proof.
  induction s as [|a s IH]; simpl; [done |].
  destruct (Ascii.eqb a slash); [split; [lia | done] |].
  pose proof (IndexByte_range s slash).
  destruct (Z.ltb_spec (IndexByte s slash) 0); rewrite <- IH; lia.
Qed.

Lemma split_first_no_slash p :
  has_slash p = false → split_first p = (p, EmptyString).
Proof.
  induction p as [|c p IH]; simpl; [done |].
  destruct (Ascii.eqb c slash); [done |]. intros H. by rewrite (IH H).
Qed.

Lemma split_first_slash p :
  has_slash p = true →
  p = (split_first p).1 +:+ String slash (split_first p).2.
Proof.
  induction p as [|c p IH]; simpl; [done |].
  destruct (Ascii.eqb_spec c slash) as [->|Hne]; simpl; [done |].
  intros H. by rewrite ?app_cons, <- (IH H).
Qed.

Lemma split_first_head_no_slash p : has_slash (split_first p).1 = false.
Proof.
  induction p as [|c p IH]; simpl; [done |].
  destruct (Ascii.eqb c slash) eqn:E; simpl; [done | by rewrite E].
Qed.

Lemma split_first_index p :
  has_slash p = true → IndexByte p slash = len (split_first p).1.
Proof.
  unfold len. induction p as [|c p IH]; simpl; [done |].
  destruct (Ascii.eqb c slash); simpl; [done |]. intros H.
  rewrite (IH H).
  destruct (Z.ltb_spec (Z.of_nat (String.length (split_first p).1)) 0); lia.
Qed.

Lemma split_first_tail_length p :
  p ≠ EmptyString →
  (String.length (split_first p).2 < String.length p)%nat.
Proof.
  induction p as [|c p IH]; simpl; [done |]. intros _.
  destruct (Ascii.eqb c slash); simpl; [lia |].
  destruct p as [|d p]; [simpl; lia |].
  assert (String d p ≠ EmptyString) as H by done. specialize (IH H). lia.
Qed.

Lemma slice_to_Done s hi :
  0 ≤ hi ≤ len s → slice_to s hi = Done (take (Z.to_nat hi) s).
Proof.
  intros [H1 H2]. unfold slice_to.
  apply Z.leb_le in H1, H2. by rewrite H1, H2.
Qed.

Lemma slice_from_Done s lo :
  0 ≤ lo ≤ len s → slice_from s lo = Done (drop (Z.to_nat lo) s).
Proof.
  intros [H1 H2]. unfold slice_from.
  apply Z.leb_le in H1, H2. by rewrite H1, H2.
Qed.

(** [pathTakeFirst] never panics: both slices are in range. *)
Lemma pathTakeFirst_Done p : pathTakeFirst p = Done (split_first p).
Proof.
  unfold pathTakeFirst. destruct (has_slash p) eqn:Hs.
  - pose proof (split_first_index p Hs) as Hi.
    pose proof (split_first_slash p Hs) as Hp.
    pose proof (len_nonneg (split_first p).1) as H0.
    destruct (split_first p) as [h t]; simpl in *.
    assert (len p = len h + 1 + len t) as Hl.
    { rewrite Hp at 1. rewrite len_append. unfold len; simpl. lia. }
    pose proof (len_nonneg t).
    rewrite Hi. destruct (Z.leb_spec 0 (len h)); [|lia].
    rewrite slice_to_Done, slice_from_Done by lia. simpl.
    f_equal. f_equal.
    + unfold len. rewrite Nat2Z.id. rewrite Hp at 1. apply take_app_length.
    + replace (Z.to_nat (len h + 1))
        with (String.length (h +:+ String slash EmptyString)).
      * rewrite Hp at 1. change (String slash t) with (String slash EmptyString +:+ t).
        rewrite <- append_assoc. apply drop_app_length.
      * rewrite length_append. unfold len. simpl. lia.
  - apply IndexByte_neg in Hs as Hi.
    destruct (Z.leb_spec 0 (IndexByte p slash)); [lia |].
    by rewrite split_first_no_slash.
Qed.

End string_facts.

(** * Components of a path *)

Section component_facts.

Implicit Types s p a b : string.
Implicit Types cs : list string.

Lemma components_loop_fuel fuel1 fuel2 p :
  (String.length p ≤ fuel1)%nat → (String.length p ≤ fuel2)%nat →
  components_loop fuel1 p = components_loop fuel2 p.
Proof.
  revert fuel2 p. induction fuel1 as [|f1 IH]; intros fuel2 p H1 H2.
  - destruct p; simpl in *; [by destruct fuel2 | lia].
  - destruct p as [|c p]; [by destruct fuel2 |].
    destruct fuel2 as [|f2]; [simpl in H2; lia |].
    cbn [components_loop]. f_equal.
    pose proof (split_first_tail_length (String c p) ltac:(done)) as Hlt.
    apply IH; lia.
Qed.

Lemma components_empty : components EmptyString = [].
Proof. done. Qed.

Lemma components_cons p :
  p ≠ EmptyString →
  components p = (split_first p).1 :: components (split_first p).2.
Proof.
  intros Hp. unfold components at 1.
  destruct p as [|c p]; [done |].
  cbn [String.length components_loop]. f_equal.
  apply components_loop_fuel; [|done].
  pose proof (split_first_tail_length (String c p) ltac:(done)).
  cbn [String.length] in *. lia.
Qed.

Lemma components_nil_iff p : components p = [] ↔ p = EmptyString.
Proof.
  split; [|by intros ->].
  destruct p as [|c p]; [done |]. by rewrite components_cons.
Qed.

(** Induction along the iterations of a traversal loop. *)
Lemma path_ind (P : string → Prop) :
  P EmptyString →
  (∀ p, p ≠ EmptyString → P (split_first p).2 → P p) →
  ∀ p, P p.
Proof.
  intros H0 Hstep p.
  remember (String.length p) as k eqn:Hk.
  revert p Hk. induction (lt_wf k) as [k _ IH]; intros p ->.
  destruct p as [|c p]; [done |].
  apply Hstep; [done |].
  eapply IH; [|done]. by apply split_first_tail_length.
Qed.

(** A path is its first component alone, or the first component, a
    separator and the rest. *)
Lemma split_first_cases p :
  (has_slash p = false ∧ split_first p = (p, EmptyString)) ∨
  (has_slash p = true ∧ p = (split_first p).1 +:+ String slash (split_first p).2).
Proof.
  destruct (has_slash p) eqn:E.
  - right. split; [done |]. by apply split_first_slash.
  - left. split; [done |]. by apply split_first_no_slash.
Qed.

Lemma join_cons c cs :
  cs ≠ [] → join (c :: cs) = c +:+ String slash (join cs).
Proof. by destruct cs. Qed.

Lemma join_prefix_components cs p :
  cs `prefix_of` components p → is_prefix (join cs) p.
Proof.
  revert p. induction cs as [|c cs IH]; intros p [k Hk].
  - by exists p.
  - assert (p ≠ EmptyString) as Hp by (by intros ->).
    rewrite components_cons in Hk by done. simplify_eq/=.
    destruct cs as [|d cs].
    + destruct (split_first_cases p) as [[_ ->]|[_ Hs]]; simpl.
      * apply is_prefix_refl.
      * by eexists.
    + destruct (split_first_cases p) as [[_ E]|[_ Hs]].
      * rewrite E in H0. simpl in H0. done.
      * destruct (IH (split_first p).2) as [r Hr]; [by eexists |].
        exists r. rewrite append_assoc, app_cons, <- Hr. exact Hs.
Qed.

Lemma advance_ge cur c : 0 ≤ cur → cur ≤ advance cur c.
Proof.
  intros. unfold advance. pose proof (len_nonneg c).
  destruct (Z.ltb_spec 0 cur); lia.
Qed.

Lemma curLen_from_ge cur cs : 0 ≤ cur → cur ≤ curLen_from cur cs.
Proof.
  revert cur. unfold curLen_from.
  induction cs as [|c cs IH]; intros cur Hc; simpl; [lia |].
  pose proof (advance_ge cur c Hc).
  specialize (IH (advance cur c)). lia.
Qed.

Lemma curLen_from_app cur cs1 cs2 :
  curLen_from cur (cs1 ++ cs2) = curLen_from (curLen_from cur cs1) cs2.
Proof. apply foldl_app. Qed.

Lemma curLen_from_bound cur cs :
  0 ≤ cur → cs ≠ [] → curLen_from cur cs ≤ cur + 1 + len (join cs).
Proof.
  revert cur. induction cs as [|c cs IH]; intros cur Hc Hne; [done |].
  cbn [curLen_from foldl]. fold (curLen_from (advance cur c) cs).
  pose proof (advance_ge cur c Hc) as Hge.
  assert (advance cur c ≤ cur + 1 + len c) as Hle.
  { unfold advance. destruct (Z.ltb_spec 0 cur); lia. }
  destruct cs as [|d cs]; [simpl; lia |].
  rewrite (join_cons _ (d :: cs)) by done. rewrite len_append.
  specialize (IH (advance cur c) ltac:(lia) ltac:(done)).
  replace (len (String slash (join (d :: cs)))) with (1 + len (join (d :: cs)))
    by (unfold len; simpl; lia).
  lia.
Qed.

Lemma curLen_from_exact cur cs :
  0 < cur → cs ≠ [] → curLen_from cur cs = cur + 1 + len (join cs).
Proof.
  revert cur. induction cs as [|c cs IH]; intros cur Hc Hne; [done |].
  cbn [curLen_from foldl]. fold (curLen_from (advance cur c) cs).
  assert (advance cur c = cur + 1 + len c) as Hadv.
  { unfold advance. destruct (Z.ltb_spec 0 cur); lia. }
  pose proof (len_nonneg c).
  destruct cs as [|d cs]; [simpl; lia |].
  rewrite (join_cons _ (d :: cs)) by done. rewrite len_append.
  rewrite IH by (done || lia).
  replace (len (String slash (join (d :: cs)))) with (1 + len (join (d :: cs)))
    by (unfold len; simpl; lia).
  lia.
Qed.

(** [curPathLen] stays within the part of the path already walked. *)
Lemma curLen_le_join cs : curLen_from 0 cs ≤ len (join cs).
Proof.
  destruct cs as [|c cs]; [done |].
  cbn [curLen_from foldl]. fold (curLen_from (advance 0 c) cs).
  pose proof (len_nonneg c) as Hc.
  change (advance 0 c) with (0 + len c). rewrite Z.add_0_l.
  destruct cs as [|d cs]; [simpl; lia |].
  rewrite (join_cons _ (d :: cs)) by done. rewrite len_append.
  pose proof (curLen_from_bound (len c) (d :: cs) Hc ltac:(done)).
  replace (len (String slash (join (d :: cs)))) with (1 + len (join (d :: cs)))
    by (unfold len; simpl; lia).
  lia.
Qed.

Lemma curLen_from_nonneg cs : 0 ≤ curLen_from 0 cs.
Proof. by apply curLen_from_ge. Qed.

(** Where the first component is not empty the computed length is that of
    the joined components, and the node's path is the joined components. *)
Lemma curLen_eq_join c cs :
  c ≠ EmptyString → curLen_from 0 (c :: cs) = len (join (c :: cs)).
Proof.
  intros Hc. cbn [curLen_from foldl]. fold (curLen_from (advance 0 c) cs).
  change (advance 0 c) with (0 + len c). rewrite Z.add_0_l.
  assert (0 < len c) as Hpos.
  { pose proof (len_nonneg c). pose proof (len_zero_iff c) as [Hz _].
    destruct (decide (len c = 0)) as [E|]; [by apply Hz in E | lia]. }
  destruct cs as [|d cs]; [done |].
  rewrite curLen_from_exact by done.
  rewrite (join_cons _ (d :: cs)) by done. rewrite len_append.
  replace (len (String slash (join (d :: cs)))) with (1 + len (join (d :: cs)))
    by (unfold len; simpl; lia).
  lia.
Qed.

Lemma node_path_nil : node_path [] = EmptyString.
Proof. done. Qed.

Lemma node_path_join c cs :
  c ≠ EmptyString → node_path (c :: cs) = join (c :: cs).
Proof.
  intros Hc. unfold node_path. rewrite curLen_eq_join by done.
  unfold len. rewrite Nat2Z.id. apply take_all.
Qed.

Lemma node_path_prefix cs : is_prefix (node_path cs) (join cs).
Proof. apply take_is_prefix. Qed.

(** The path [set] writes into a node it creates. *)
Lemma take_curLen_orig orig cs :
  cs `prefix_of` components orig →
  take (Z.to_nat (curLen_from 0 cs)) orig = node_path cs.
Proof.
  intros Hpre. unfold node_path.
  apply take_of_prefix; [by apply join_prefix_components |].
  pose proof (curLen_le_join cs). pose proof (curLen_from_nonneg cs).
  unfold len in *. lia.
Qed.

Lemma curLen_le_orig orig cs :
  cs `prefix_of` components orig → curLen_from 0 cs ≤ len orig.
Proof.
  intros Hpre. pose proof (curLen_le_join cs).
  apply join_prefix_components, is_prefix_length in Hpre.
  unfold len in *. lia.
Qed.

End component_facts.

(** * The loops and the walks they perform *)

Section loop_facts.

Context {T : Type}.
Implicit Types n m ch : pathTreeNode T.
Implicit Types p orig : string.
Implicit Types cs pre : list string.

Lemma len_pos_true p : p ≠ EmptyString → (0 <? len p) = true.
Proof.
  intros Hp. apply Z.ltb_lt. unfold len. destruct p; [done | simpl; lia].
Qed.

Lemma len_eqb_false p : p ≠ EmptyString → (len p =? 0) = false.
Proof.
  intros Hp. apply Z.eqb_neq. unfold len. destruct p; [done | simpl; lia].
Qed.

Lemma fuel_tail p fuel :
  p ≠ EmptyString → (String.length p ≤ S fuel)%nat →
  (String.length (split_first p).2 ≤ fuel)%nat.
Proof. intros Hp Hf. pose proof (split_first_tail_length p Hp). lia. Qed.

(** ** [get] *)

Lemma get_loop_nil fuel p : get_loop (T:=T) fuel None p = Done None.
Proof. by destruct fuel. Qed.

Lemma get_loop_descend fuel n p :
  (String.length p ≤ fuel)%nat →
  get_loop fuel (Some n) p = Done (descend n (components p)).
Proof.
  revert n p. induction fuel as [|fuel IH]; intros n p Hf.
  - destruct p; [done | simpl in Hf; lia].
  - destruct (decide (p = EmptyString)) as [->|Hp]; [done |].
    cbn [get_loop]. rewrite len_pos_true, pathTakeFirst_Done by done.
    rewrite components_cons by done.
    destruct (split_first p) as [h t] eqn:E. cbn.
    pose proof (fuel_tail p fuel Hp Hf) as Ht. rewrite E in Ht.
    destruct (children n !! h) as [ch|]; [by apply IH | apply get_loop_nil].
Qed.

Lemma get_descend n p : get n p = Done (descend n (components p)).
Proof. by apply get_loop_descend. Qed.

(** ** [lookup] *)

Lemma best_match_cons n (l : list (pathTreeNode T)) :
  best_match (n :: l) =
  match best_match l with
  | Some m => Some m
  | None => if has_value n then Some n else None
  end.
Proof.
  unfold best_match. rewrite filter_cons.
  destruct (decide (has_value n = true)) as [E|E].
  - rewrite last_cons, E. by destruct (last _).
  - apply not_true_is_false in E. rewrite E. by destruct (last _).
Qed.

Lemma lookup_loop_nil fuel p (lst : option (pathTreeNode T)) :
  lookup_loop fuel None p lst = Done lst.
Proof. by destruct fuel. Qed.

Lemma lookup_loop_empty fuel n (lst : option (pathTreeNode T)) :
  lookup_loop fuel (Some n) EmptyString lst =
  Done (from_option Some lst (best_match (visited n []))).
Proof.
  cbn [visited]. rewrite best_match_cons. unfold has_value.
  destruct fuel; cbn; by destruct (value n).
Qed.

Lemma lookup_loop_visited fuel n p lst :
  (String.length p ≤ fuel)%nat →
  lookup_loop fuel (Some n) p lst =
  Done (from_option Some lst (best_match (visited n (components p)))).
Proof.
  revert n p lst. induction fuel as [|fuel IH]; intros n p lst Hf.
  - destruct p; [apply lookup_loop_empty | simpl in Hf; lia].
  - destruct (decide (p = EmptyString)) as [->|Hp]; [apply lookup_loop_empty |].
    cbn [lookup_loop]. rewrite len_eqb_false, pathTakeFirst_Done by done.
    rewrite components_cons by done.
    destruct (split_first p) as [h t] eqn:E. cbn [mbind res_bind visited fst snd].
    pose proof (fuel_tail p fuel Hp Hf) as Ht. rewrite E in Ht.
    rewrite best_match_cons. unfold has_value.
    destruct (children n !! h) as [ch|].
    + rewrite IH by done.
      destruct (best_match (visited ch (components t))); [done |].
      by destruct (value n).
    + rewrite lookup_loop_nil. cbn. by destruct (value n).
Qed.

Lemma lookup_visited n p :
  lookup n p = Done (best_match (visited n (components p))).
Proof.
  unfold lookup. rewrite lookup_loop_visited by done.
  by destruct (best_match _).
Qed.

(** ** [set] *)

Lemma set_loop_set_at fuel orig cur n p v pre :
  components orig = pre ++ components p →
  cur = curLen_from 0 pre →
  (String.length p ≤ fuel)%nat →
  set_loop fuel orig cur n p v = Done (set_at orig cur n (components p) v).
Proof.
  revert cur n p pre. induction fuel as [|fuel IH]; intros cur n p pre Hc -> Hf.
  - destruct p; [done | simpl in Hf; lia].
  - destruct (decide (p = EmptyString)) as [->|Hp]; [done |].
    cbn [set_loop]. rewrite len_pos_true, pathTakeFirst_Done by done.
    rewrite (components_cons p) in Hc |- * by done.
    destruct (split_first p) as [h t] eqn:E. cbn [mbind res_bind set_at fst snd] in *.
    pose proof (fuel_tail p fuel Hp Hf) as Ht. rewrite E in Ht.
    fold (advance (curLen_from 0 pre) h).
    assert (advance (curLen_from 0 pre) h = curLen_from 0 (pre ++ [h])) as Hadv.
    { by rewrite curLen_from_app. }
    assert ((pre ++ [h]) `prefix_of` components orig) as Hpre.
    { exists (components t). by rewrite <- app_assoc. }
    assert (components orig = (pre ++ [h]) ++ components t) as Hc'.
    { by rewrite <- app_assoc. }
    destruct (children n !! h) as [ch|]; cbn [mbind res_bind].
    + by rewrite (IH _ _ _ (pre ++ [h])).
    + rewrite slice_to_Done.
      2:{ rewrite Hadv. split; [apply curLen_from_nonneg | by apply curLen_le_orig]. }
      cbn [mbind res_bind]. by rewrite (IH _ _ _ (pre ++ [h])).
Qed.

Lemma set_set_at n p v : set n p v = Done (set_at p 0 n (components p) v).
Proof. by apply (set_loop_set_at _ _ _ _ _ _ []). Qed.

Lemma Set_Done (t : pathTree T) p v :
  Set_ t p v =
  Done (mkTree (set_at p 0 (root t) (components p) v)
          (wrap_int (countHint t + 1))).
Proof. unfold Set_. by rewrite set_set_at. Qed.

End loop_facts.

(** * What [set] does to the tree *)

Section set_facts.

Context {T : Type}.
Implicit Types n m ch : pathTreeNode T.
Implicit Types p orig : string.
Implicit Types cs pre : list string.

Lemma set_at_name orig cur n cs v : name (set_at orig cur n cs v) = name n.
Proof. by destruct cs. Qed.

Lemma set_at_path orig cur n cs v : path (set_at orig cur n cs v) = path n.
Proof. by destruct cs. Qed.

Lemma set_at_value orig cur n cs v :
  value (set_at orig cur n cs v) = if decide (cs = []) then Some v else value n.
Proof. by destruct cs. Qed.

Lemma descend_app n cs1 cs2 :
  descend n (cs1 ++ cs2) = descend n cs1 ≫= λ m, descend m cs2.
Proof.
  revert n. induction cs1 as [|c cs1 IH]; intros n; simpl; [done |].
  destruct (children n !! c); [apply IH | done].
Qed.

Lemma descend_prefix_is_Some n cs cs' :
  cs' `prefix_of` cs → is_Some (descend n cs) → is_Some (descend n cs').
Proof.
  intros [k ->]. rewrite descend_app.
  destruct (descend n cs'); [eauto | by intros [? ?]].
Qed.

Lemma descend_fresh c pth cs m :
  descend (mkNode c pth (None : option T) ∅) cs = Some m →
  cs = [] ∧ m = mkNode c pth None ∅.
Proof. destruct cs; simpl; [by intros [= <-] | by rewrite lookup_empty]. Qed.

(** A node that was there before [set] is still there, with its name and
    its path; its value changes only at the components assigned. *)
Lemma descend_set_at_old orig cur n cs v cs' m :
  descend n cs' = Some m →
  ∃ m', descend (set_at orig cur n cs v) cs' = Some m' ∧
        name m' = name m ∧ path m' = path m ∧
        value m' = if decide (cs' = cs) then Some v else value m.
Proof.
  revert cur n cs'. induction cs as [|c cs IH]; intros cur n cs' Hd.
  - destruct cs' as [|d cs']; cbn [descend set_at children] in *.
    + simplify_eq. eexists; split; [done |]. by rewrite decide_True.
    + exists m. by rewrite decide_False.
  - destruct cs' as [|d cs']; cbn [descend set_at] in *.
    + simplify_eq. eexists; split; [done |]. by rewrite decide_False.
    + cbn [children]. destruct (decide (c = d)) as [->|Hne].
      * rewrite lookup_insert_eq.
        destruct (children n !! d) as [ch|] eqn:E; [|done].
        destruct (IH (advance cur d) ch cs' Hd) as (m' & ? & ? & ? & Hv).
        exists m'. repeat split; try done. rewrite Hv.
        destruct (decide (cs' = cs)) as [->|?].
        -- by rewrite decide_True.
        -- rewrite decide_False; [done | congruence].
      * rewrite lookup_insert_ne by done.
        exists m. rewrite decide_False; [|congruence].
        by destruct (children n !! d).
Qed.

(** A node that [set] has created lies on the assigned path; it is named
    after its component and its path is the slice of the assigned path that
    [curPathLen] delimits. *)
Lemma descend_set_at_new orig cur n cs v cs' m' :
  descend (set_at orig cur n cs v) cs' = Some m' →
  descend n cs' = None →
  cs' `prefix_of` cs ∧ last cs' = Some (name m') ∧
  path m' = take (Z.to_nat (curLen_from cur cs')) orig ∧
  value m' = if decide (cs' = cs) then Some v else None.
Proof.
  revert cur n cs'. induction cs as [|c cs IH]; intros cur n cs' Hd Hn.
  - destruct cs' as [|d cs']; simpl in *; [done | congruence].
  - destruct cs' as [|d cs']; cbn [descend set_at children] in *; [done |].
    destruct (decide (c = d)) as [->|Hne].
    2:{ rewrite lookup_insert_ne in Hd by done.
        destruct (children n !! d); congruence. }
    rewrite lookup_insert_eq in Hd.
    set (ch := match children n !! d with
               | Some ch => ch
               | None => mkNode d (take (Z.to_nat (advance cur d)) orig) None ∅
               end) in *.
    destruct (descend ch cs') as [m0|] eqn:E0.
    + (* only the new child itself *)
      destruct (children n !! d) as [ch0|] eqn:E; [subst ch; congruence |].
      subst ch. apply descend_fresh in E0 as [-> ->].
      simpl in Hd. simplify_eq.
      rewrite set_at_name, set_at_path, set_at_value. simpl.
      split; [apply prefix_cons, prefix_nil |].
      repeat split; try done.
      destruct (decide (cs = [])) as [->|?].
      * by rewrite decide_True.
      * rewrite decide_False; [done | congruence].
    + destruct (IH (advance cur d) ch cs' Hd E0) as (Hp & Hl & Hpath & Hv).
      split; [by apply prefix_cons |].
      assert (cs' ≠ []) as Hne by (intros ->; done).
      repeat split.
      * destruct cs'; [done | by rewrite last_cons_cons].
      * done.
      * rewrite Hv. destruct (decide (cs' = cs)) as [->|?].
        -- by rewrite decide_True.
        -- rewrite decide_False; [done | congruence].
Qed.

Lemma descend_set_at_None orig cur n cs v cs' :
  descend (set_at orig cur n cs v) cs' = None → descend n cs' = None.
Proof.
  intros H. destruct (descend n cs') as [m|] eqn:E; [|done].
  destruct (descend_set_at_old orig cur n cs v cs' m E) as (? & ? & _). congruence.
Qed.

(** The explicit values after [set]: the one assigned, and the others as
    they were. *)
Lemma explicit_set_at orig cur n cs v cs' :
  explicit (set_at orig cur n cs v) cs' =
  if decide (cs' = cs) then Some v else explicit n cs'.
Proof.
  unfold explicit.
  destruct (descend n cs') as [m|] eqn:E.
  - destruct (descend_set_at_old orig cur n cs v cs' m E) as (m' & -> & _ & _ & Hv).
    simpl. rewrite Hv. by destruct (decide _).
  - destruct (descend (set_at orig cur n cs v) cs') as [m'|] eqn:E'.
    + destruct (descend_set_at_new _ _ _ _ _ _ _ E' E) as (_ & _ & _ & Hv).
      simpl. rewrite Hv. by destruct (decide _).
    + simpl. destruct (decide (cs' = cs)) as [->|]; [|done].
      (* the assigned node exists *)
      exfalso. clear E. revert cur n E'.
      induction cs as [|c cs IH]; intros cur n; cbn [descend set_at children]; [done |].
      rewrite lookup_insert_eq. apply IH.
Qed.

Lemma descend_set_at_same orig cur n cs v :
  ∃ m, descend (set_at orig cur n cs v) cs = Some m ∧ value m = Some v.
Proof.
  pose proof (explicit_set_at orig cur n cs v cs) as H.
  rewrite decide_True in H by done. unfold explicit in H.
  destruct (descend _ cs) as [m|]; [eauto | done].
Qed.

(** Re-assigning a path that has a node creates no node. *)
Lemma descend_set_at_shape orig cur n cs v cs' :
  is_Some (descend n cs) →
  is_Some (descend (set_at orig cur n cs v) cs') ↔ is_Some (descend n cs').
Proof.
  intros Hex. split.
  - intros [m' Hm']. destruct (descend n cs') as [m|] eqn:E; [eauto |].
    destruct (descend_set_at_new _ _ _ _ _ _ _ Hm' E) as (Hp & _).
    pose proof (descend_prefix_is_Some n cs cs' Hp Hex) as [? ?]. congruence.
  - intros [m Hm].
    destruct (descend_set_at_old orig cur n cs v cs' m Hm) as (m' & -> & _). eauto.
Qed.

End set_facts.

(** * What [Lookup] finds *)

Section lookup_facts.

Context {T : Type}.
Variable zero : T.
Implicit Types n m ch : pathTreeNode T.
Implicit Types t : pathTree T.
Implicit Types p orig : string.
Implicit Types cs pre : list string.

Lemma prefix_cons_cases {A} (l : list A) x k :
  l `prefix_of` x :: k → l = [] ∨ ∃ l', l = x :: l' ∧ l' `prefix_of` k.
Proof.
  destruct l as [|y l]; [by left |]. intros H. right.
  pose proof (prefix_cons_inv_1 _ _ _ _ H) as ->.
  apply prefix_cons_inv_2 in H. eauto.
Qed.

Lemma has_value_explicit n cs m :
  descend n cs = Some m → has_value m = true → explicit n cs ≠ None.
Proof.
  unfold explicit, has_value. intros -> H. simpl. by destruct (value m).
Qed.

Lemma explicit_cons_Some n c ch cs :
  children n !! c = Some ch → explicit n (c :: cs) = explicit ch cs.
Proof. unfold explicit. simpl. by intros ->. Qed.

Lemma explicit_cons_None n c cs :
  children n !! c = None → explicit n (c :: cs) = None.
Proof. unfold explicit. simpl. by intros ->. Qed.

Lemma is_best_here n cs :
  has_value n = true →
  (∀ cs'', cs'' `prefix_of` cs → cs'' ≠ [] → explicit n cs'' = None) →
  is_best n cs [] n.
Proof.
  intros Hv Hl. split; [apply prefix_nil |]. repeat split; try done.
  intros cs'' Hp Hlen. apply Hl; [done |]. intros ->. simpl in Hlen. lia.
Qed.

(** The node [lookup] returns is the deepest valued node on the walk. *)
Lemma best_match_visited n cs :
  match best_match (visited n cs) with
  | Some m => ∃ cs', is_best n cs cs' m
  | None => ∀ cs', cs' `prefix_of` cs → explicit n cs' = None
  end.
Proof.
  revert n. induction cs as [|c cs IH]; intros n; cbn [visited];
    rewrite best_match_cons.
  - change (best_match []) with (@None (pathTreeNode T)).
    destruct (has_value n) eqn:Hv.
    + exists []. apply is_best_here; [done |].
      intros cs'' Hp Hne. by apply prefix_nil_inv in Hp.
    + intros cs' Hp. apply prefix_nil_inv in Hp as ->.
      unfold explicit, has_value in *. simpl. by destruct (value n).
  - destruct (children n !! c) as [ch|] eqn:E.
    + specialize (IH ch). destruct (best_match (visited ch cs)) as [m|].
      * destruct IH as (cs' & Hp & Hd & Hv & Hl). exists (c :: cs').
        split; [by apply prefix_cons |]. repeat split; try done.
        { simpl. by rewrite E. }
        intros cs'' Hp'' Hlen.
        destruct (prefix_cons_cases _ _ _ Hp'') as [->|(l' & -> & Hl')];
          [simpl in Hlen; lia |].
        rewrite (explicit_cons_Some _ _ _ _ E). apply Hl; [done |].
        simpl in Hlen. lia.
      * destruct (has_value n) eqn:Hv.
        -- exists []. apply is_best_here; [done |].
           intros cs'' Hp'' Hne.
           destruct (prefix_cons_cases _ _ _ Hp'') as [->|(l' & -> & Hl')]; [done |].
           rewrite (explicit_cons_Some _ _ _ _ E). by apply IH.
        -- intros cs' Hp'.
           destruct (prefix_cons_cases _ _ _ Hp') as [->|(l' & -> & Hl')].
           ++ unfold explicit, has_value in *. simpl. by destruct (value n).
           ++ rewrite (explicit_cons_Some _ _ _ _ E). by apply IH.
    + change (best_match []) with (@None (pathTreeNode T)).
      destruct (has_value n) eqn:Hv.
      * exists []. apply is_best_here; [done |].
        intros cs'' Hp'' Hne.
        destruct (prefix_cons_cases _ _ _ Hp'') as [->|(l' & -> & Hl')]; [done |].
        by apply explicit_cons_None.
      * intros cs' Hp'.
        destruct (prefix_cons_cases _ _ _ Hp') as [->|(l' & -> & Hl')].
        -- unfold explicit, has_value in *. simpl. by destruct (value n).
        -- by apply explicit_cons_None.
Qed.

Lemma prefix_same_length {A} (l1 l2 l : list A) :
  l1 `prefix_of` l → l2 `prefix_of` l → length l1 = length l2 → l1 = l2.
Proof.
  intros H1 H2 Hlen.
  destruct (prefix_weak_total _ _ _ H1 H2) as [H|H];
    [|symmetry]; apply prefix_length_eq; (done || lia).
Qed.

Lemma is_best_unique n cs cs1 m1 cs2 m2 :
  is_best n cs cs1 m1 → is_best n cs cs2 m2 → cs1 = cs2 ∧ m1 = m2.
Proof.
  intros (Hp1 & Hd1 & Hv1 & Hl1) (Hp2 & Hd2 & Hv2 & Hl2).
  assert (length cs1 = length cs2) as Hlen.
  { destruct (Nat.lt_trichotomy (length cs1) (length cs2)) as [H|[H|H]]; [|done|].
    - by destruct (has_value_explicit n cs2 m2 Hd2 Hv2); apply Hl1.
    - by destruct (has_value_explicit n cs1 m1 Hd1 Hv1); apply Hl2. }
  pose proof (prefix_same_length _ _ _ Hp1 Hp2 Hlen) as ->.
  split; [done | congruence].
Qed.

Lemma best_match_is_best n cs cs' m :
  is_best n cs cs' m → best_match (visited n cs) = Some m.
Proof.
  intros Hb. pose proof (best_match_visited n cs) as H.
  destruct (best_match (visited n cs)) as [m'|].
  - destruct H as (cs'' & Hb'). by destruct (is_best_unique _ _ _ _ _ _ Hb Hb') as [_ ->].
  - destruct Hb as (Hp & Hd & Hv & _).
    by destruct (has_value_explicit n cs' m Hd Hv); apply H.
Qed.

Lemma best_match_has_value n cs m :
  best_match (visited n cs) = Some m → has_value m = true.
Proof.
  intros H. pose proof (best_match_visited n cs) as Hb. rewrite H in Hb.
  by destruct Hb as (? & _ & _ & ? & _).
Qed.

Lemma best_match_Some_value (l : list (pathTreeNode T)) m :
  best_match l = Some m → has_value m = true.
Proof.
  unfold best_match. intros H%last_Some_elem_of.
  by apply list_elem_of_filter in H as [? _].
Qed.

(** The recorded matches and the node [lookup] retains. *)
Lemma last_recorded (l : list (pathTreeNode T)) :
  last (recorded l) = best_match l ≫= report.
Proof.
  induction l as [|n l IH]; [done |].
  rewrite best_match_cons. unfold recorded in *. cbn [omap list_omap].
  pose proof (best_match_Some_value l) as Hv.
  destruct (best_match l) as [m|].
  - specialize (Hv m eq_refl). cbn [mbind option_bind] in *.
    assert (is_Some (report m)) as [r Hr].
    { unfold report, has_value in *. destruct (value m); [eauto | done]. }
    rewrite Hr in *. destruct (report n); [|done].
    by rewrite last_cons, IH.
  - cbn [mbind option_bind] in IH.
    destruct (value n) as [v|] eqn:Ev.
    + assert (report n = Some (path n, v)) as Hr by (unfold report; by rewrite Ev).
      assert (has_value n = true) as -> by (unfold has_value; by rewrite Ev).
      cbn [mbind option_bind]. by rewrite Hr, last_cons, IH.
    + assert (report n = None) as Hr by (unfold report; by rewrite Ev).
      assert (has_value n = false) as -> by (unfold has_value; by rewrite Ev).
      by rewrite Hr.
Qed.

Lemma Lookup_best t p :
  Lookup zero t p =
  Done match best_match (visited (root t) (components p)) ≫= report with
       | Some (q, v) => (q, v, true)
       | None => (EmptyString, zero, false)
       end.
Proof.
  unfold Lookup. rewrite lookup_visited. cbn [mbind res_bind].
  destruct (best_match _) as [m|]; [|done]. unfold report. simpl.
  by destruct (value m).
Qed.

End lookup_facts.

(** * Trees built by sequences of assignments *)

Section built_facts.

Context {T : Type}.
Variable zero : T.
Implicit Types n m ch : pathTreeNode T.
Implicit Types t : pathTree T.
Implicit Types p orig : string.
Implicit Types cs pre : list string.
Implicit Types ops : list (string * T).

Lemma Assigns_snoc ops p v :
  Assigns (ops ++ [(p, v)]) = Assigns ops ≫= λ t, Set_ t p v.
Proof. unfold Assigns. by rewrite foldl_app. Qed.

Lemma Assigns_Done ops : ∃ t, Assigns ops = Done t.
Proof.
  induction ops as [|[p v] ops IH] using rev_ind; [by eexists |].
  destruct IH as [t Ht]. rewrite Assigns_snoc, Ht. cbn. rewrite Set_Done. eauto.
Qed.

(** Induction over the assignments that build a tree. *)
Lemma Assigns_ind (P : list (string * T) → pathTree T → Prop) :
  P [] zeroTree →
  (∀ ops t p v, Assigns ops = Done t → P ops t →
     P (ops ++ [(p, v)])
       (mkTree (set_at p 0 (root t) (components p) v)
          (wrap_int (countHint t + 1)))) →
  ∀ ops t, Assigns ops = Done t → P ops t.
Proof.
  intros H0 Hstep ops.
  induction ops as [|[p v] ops IH] using rev_ind; intros t Ht.
  - cbn in Ht. by simplify_eq.
  - rewrite Assigns_snoc in Ht. destruct (Assigns_Done ops) as [t0 Ht0].
    rewrite Ht0 in Ht. cbn in Ht. rewrite Set_Done in Ht. simplify_eq.
    by apply Hstep; [|apply IH].
Qed.

Lemma items_of_snoc ops p v : items_of (ops ++ [(p, v)]) = <[p := v]> (items_of ops).
Proof. unfold items_of. by rewrite foldl_app. Qed.

Lemma assigned_snoc ops p v :
  assigned (ops ++ [(p, v)]) = <[components p := v]> (assigned ops).
Proof. unfold assigned. by rewrite foldl_app. Qed.

Lemma paths_ok_zero : paths_ok (zeroNode (T:=T)).
Proof. by intros cs m [-> ->]%descend_fresh. Qed.

Lemma names_ok_zero : names_ok (zeroNode (T:=T)).
Proof. by intros cs m [-> ->]%descend_fresh. Qed.

Lemma paths_ok_set n p v :
  paths_ok n → paths_ok (set_at p 0 n (components p) v).
Proof.
  intros Hok cs m' Hd. destruct (descend n cs) as [m|] eqn:E.
  - destruct (descend_set_at_old p 0 n (components p) v cs m E)
      as (m'' & Hd' & _ & Hp & _).
    rewrite Hd in Hd'. simplify_eq. rewrite Hp. by apply Hok.
  - destruct (descend_set_at_new _ _ _ _ _ _ _ Hd E) as (Hpre & _ & -> & _).
    by apply take_curLen_orig.
Qed.

Lemma names_ok_set n p v :
  names_ok n → names_ok (set_at p 0 n (components p) v).
Proof.
  intros Hok cs m' Hd Hne. destruct (descend n cs) as [m|] eqn:E.
  - destruct (descend_set_at_old p 0 n (components p) v cs m E)
      as (m'' & Hd' & Hn & _).
    rewrite Hd in Hd'. simplify_eq. rewrite Hn. by apply Hok.
  - by destruct (descend_set_at_new _ _ _ _ _ _ _ Hd E) as (_ & ? & _).
Qed.

Lemma built_paths_ok ops t : Assigns ops = Done t → paths_ok (root t).
Proof.
  revert ops t. apply Assigns_ind; [apply paths_ok_zero |].
  intros ops t p v _ Hok. by apply paths_ok_set.
Qed.

Lemma built_names_ok ops t : Assigns ops = Done t → names_ok (root t).
Proof.
  revert ops t. apply Assigns_ind; [apply names_ok_zero |].
  intros ops t p v _ Hok. by apply names_ok_set.
Qed.

(** The explicit values of a built tree are the values last assigned, by
    components. *)
Lemma built_explicit ops t cs :
  Assigns ops = Done t → explicit (root t) cs = assigned ops !! cs.
Proof.
  intros H. revert ops t H cs. apply (Assigns_ind (λ ops t, ∀ cs, _)).
  - intros cs. unfold explicit. cbn [root zeroTree].
    destruct (descend _ cs) as [m|] eqn:E; [|done].
    by apply descend_fresh in E as [-> ->].
  - intros ops t p v _ IH cs. cbn [root].
    rewrite explicit_set_at, assigned_snoc.
    destruct (decide (cs = components p)) as [->|Hne].
    + by rewrite lookup_insert_eq.
    + by rewrite lookup_insert_ne.
Qed.

(** ** The matched path is a prefix of the query *)

Lemma Lookup_found_inv t p q v :
  Lookup zero t p = Done (q, v, true) →
  ∃ cs' m, is_best (root t) (components p) cs' m ∧
           path m = q ∧ value m = Some v.
Proof.
  rewrite Lookup_best. intros H.
  pose proof (best_match_visited (root t) (components p)) as Hb.
  destruct (best_match _) as [m|]; [|cbn in H; congruence].
  destruct Hb as (cs' & Hb). exists cs', m. split; [done |].
  cbn in H. unfold report in H. destruct (value m); cbn in H; [|congruence].
  by injection H as -> ->.
Qed.

Lemma Lookup_of_best t p cs' m v :
  is_best (root t) (components p) cs' m → value m = Some v →
  Lookup zero t p = Done (path m, v, true).
Proof.
  intros Hb Hv. rewrite Lookup_best, (best_match_is_best _ _ _ _ Hb).
  unfold report. simpl. by rewrite Hv.
Qed.

Lemma Lookup_not_found t p :
  (∀ cs', cs' `prefix_of` components p → explicit (root t) cs' = None) →
  Lookup zero t p = Done (EmptyString, zero, false).
Proof.
  intros Hn. rewrite Lookup_best.
  pose proof (best_match_visited (root t) (components p)) as Hb.
  destruct (best_match _) as [m|]; [|done].
  destruct Hb as (cs' & Hp & Hd & Hv & _).
  by destruct (has_value_explicit _ _ _ Hd Hv); apply Hn.
Qed.

Lemma Lookup_prefix_built ops t p q v :
  Assigns ops = Done t → Lookup zero t p = Done (q, v, true) → is_prefix q p.
Proof.
  intros Hb (cs' & m & (Hp & Hd & _) & <- & _)%Lookup_found_inv.
  rewrite (built_paths_ok _ _ Hb cs' m Hd).
  eapply is_prefix_trans; [apply node_path_prefix |].
  by apply join_prefix_components.
Qed.

(** ** Assigning leaves the other lookups alone *)

Lemma is_best_set_at_fwd orig cur n cs v csq cs' m :
  ¬ cs `prefix_of` csq → is_best n csq cs' m →
  ∃ m', is_best (set_at orig cur n cs v) csq cs' m' ∧
        path m' = path m ∧ value m' = value m.
Proof.
  intros Hnp (Hp & Hd & Hv & Hl).
  destruct (descend_set_at_old orig cur n cs v cs' m Hd) as (m' & Hd' & _ & Hpath & Hval).
  assert (cs' ≠ cs) as Hne by (by intros ->).
  rewrite decide_False in Hval by done.
  exists m'. split; [|done]. split; [done |]. split; [done |]. split.
  - unfold has_value in *. by rewrite Hval.
  - intros cs'' Hp'' Hlen. rewrite explicit_set_at.
    rewrite decide_False; [by apply Hl | by intros ->].
Qed.

Lemma is_best_set_at_bwd orig cur n cs v csq cs' m' :
  ¬ cs `prefix_of` csq → is_best (set_at orig cur n cs v) csq cs' m' →
  ∃ m, is_best n csq cs' m ∧ path m' = path m ∧ value m' = value m.
Proof.
  intros Hnp (Hp & Hd & Hv & Hl).
  assert (cs' ≠ cs) as Hne by (by intros ->).
  pose proof (has_value_explicit _ _ _ Hd Hv) as He.
  rewrite explicit_set_at, decide_False in He by done.
  destruct (descend n cs') as [m|] eqn:E; [|by unfold explicit in He; rewrite E in He].
  destruct (descend_set_at_old orig cur n cs v cs' m E) as (m'' & Hd' & _ & Hpath & Hval).
  rewrite Hd in Hd'. simplify_eq. rewrite decide_False in Hval by done.
  exists m. split; [|done]. split; [done |]. split; [done |]. split.
  - unfold has_value in *. by rewrite <- Hval.
  - intros cs'' Hp'' Hlen. specialize (Hl cs'' Hp'' Hlen).
    rewrite explicit_set_at, decide_False in Hl; [done | by intros ->].
Qed.

Lemma best_match_set_at_frame orig cur n cs v csq :
  ¬ cs `prefix_of` csq →
  best_match (visited (set_at orig cur n cs v) csq) ≫= report =
  best_match (visited n csq) ≫= report.
Proof.
  intros Hnp.
  pose proof (best_match_visited n csq) as Hold.
  destruct (best_match (visited n csq)) as [m|].
  - destruct Hold as (cs' & Hb).
    destruct (is_best_set_at_fwd orig cur n cs v csq cs' m Hnp Hb) as (m' & Hb' & Hp & Hv).
    rewrite (best_match_is_best _ _ _ _ Hb'). unfold report. simpl. by rewrite Hp, Hv.
  - pose proof (best_match_visited (set_at orig cur n cs v) csq) as Hnew.
    destruct (best_match (visited (set_at orig cur n cs v) csq)) as [m'|]; [|done].
    destruct Hnew as (cs' & Hb').
    destruct (is_best_set_at_bwd orig cur n cs v csq cs' m' Hnp Hb')
      as (m & (Hp & Hd & Hv & _) & _).
    by destruct (has_value_explicit _ _ _ Hd Hv); apply Hold.
Qed.

End built_facts.

(** * Separators at the ends of a path *)

Section separator_facts.

Implicit Types s p a b h r : string.
Implicit Types cs : list string.

Lemma split_first_app h r :
  has_slash h = false → split_first (h +:+ String slash r) = (h, r).
Proof.
  induction h as [|c h IH]; [done |]. rewrite app_cons. simpl.
  destruct (Ascii.eqb c slash); [done |]. intros H. by rewrite (IH H).
Qed.

Lemma ends_with_slash_cons c p :
  p ≠ EmptyString → ends_with_slash (String c p) = ends_with_slash p.
Proof. by destruct p. Qed.

Lemma ends_with_slash_app a c b :
  ends_with_slash (a +:+ String c b) = ends_with_slash (String c b).
Proof.
  induction a as [|d a IH]; [done |]. rewrite app_cons.
  rewrite ends_with_slash_cons; [done |]. by destruct a.
Qed.

Lemma ends_with_slash_no_slash p : has_slash p = false → ends_with_slash p = false.
Proof.
  induction p as [|c p IH]; [done |]. simpl.
  destruct (Ascii.eqb c slash); [done |]. intros H.
  destruct p; [done | by apply IH].
Qed.

Lemma ends_with_slash_tail p :
  has_slash p = true →
  ends_with_slash p =
  if decide ((split_first p).2 = EmptyString) then true
  else ends_with_slash (split_first p).2.
Proof.
  intros Hs. rewrite (split_first_slash p Hs) at 1.
  rewrite ends_with_slash_app.
  destruct (split_first p).2; [done |].
  by rewrite ends_with_slash_cons, decide_False.
Qed.

Lemma components_single p :
  p ≠ EmptyString → has_slash p = false → components p = [p].
Proof.
  intros Hp Hs. rewrite components_cons by done.
  by rewrite split_first_no_slash.
Qed.

Lemma join_cons_components h p :
  p ≠ EmptyString →
  join (h :: components p) = h +:+ String slash (join (components p)).
Proof. intros Hp. apply join_cons. by rewrite components_nil_iff. Qed.

(** A path without a trailing separator is its components joined. *)
Lemma join_components p : ends_with_slash p = false → join (components p) = p.
Proof.
  induction p as [|p Hp IH] using path_ind; intros He; [done |].
  rewrite components_cons by done.
  destruct (split_first_cases p) as [[Hs E]|[Hs E]].
  - by rewrite E.
  - rewrite (ends_with_slash_tail p Hs) in He.
    destruct (decide _) as [|Ht]; [done |].
    rewrite join_cons_components by done. by rewrite IH, <- E.
Qed.


(** The components of an ancestor path begin those of its descendants. *)
Lemma components_app a r :
  a ≠ EmptyString → ends_with_slash a = false →
  components (a +:+ String slash r) = components a ++ components r.
Proof.
  induction a as [|a Ha IH] using path_ind; intros Ha0 He; [done |].
  assert (a +:+ String slash r ≠ EmptyString) as Hne by (by destruct a).
  destruct (split_first_cases a) as [[Hs E]|[Hs E]].
  - rewrite (components_cons _ Hne), split_first_app by done.
    rewrite (components_single a) by done. reflexivity.
  - rewrite (ends_with_slash_tail a Hs) in He.
    destruct (decide _) as [|Ht]; [done |].
    rewrite (components_cons a Ha).
    rewrite (components_cons _ Hne).
    rewrite E at 1 2. rewrite append_assoc, app_cons.
    rewrite split_first_app by apply split_first_head_no_slash.
    cbn [fst snd]. by rewrite IH.
Qed.

Lemma components_trailing_slash p :
  p ≠ EmptyString → ends_with_slash p = false →
  components (p +:+ String slash EmptyString) = components p.
Proof. intros Hp He. by rewrite components_app, components_empty, app_nil_r. Qed.

Lemma split_first_head_nonempty p :
  p ≠ EmptyString → starts_with_slash p = false →
  (split_first p).1 ≠ EmptyString.
Proof. destruct p as [|c p]; [done |]. simpl. by intros _ ->. Qed.

Lemma join_snoc cs d :
  cs ≠ [] → join (cs ++ [d]) = join cs +:+ String slash d.
Proof.
  induction cs as [|c cs IH]; [done |]. intros _.
  destruct cs as [|c' cs]; [done |].
  change ((c :: c' :: cs) ++ [d]) with (c :: ((c' :: cs) ++ [d])).
  rewrite join_cons by done. rewrite IH by done.
  rewrite (join_cons c (c' :: cs)) by done.
  by rewrite append_assoc, app_cons.
Qed.

(** The node path of the components of a path that does not begin with a
    separator. *)
Lemma node_path_components cs p :
  starts_with_slash p = false → cs `prefix_of` components p →
  node_path cs = join cs.
Proof.
  intros Hs [k Hk]. destruct cs as [|c cs]; [done |].
  apply node_path_join.
  assert (p ≠ EmptyString) as Hp by (by intros ->).
  rewrite components_cons in Hk by done. simplify_eq/=.
  by apply split_first_head_nonempty.
Qed.

(** ** The loops' components and [strings.Split] *)

Lemma split_slash_nonempty s : split_slash s ≠ [].
Proof.
  destruct s as [|c s]; [done |]. simpl.
  destruct (Ascii.eqb c slash); [done |]. by destruct (split_slash s).
Qed.

Lemma split_slash_first p :
  split_slash p =
  (split_first p).1 ::
    (if has_slash p then split_slash (split_first p).2 else []).
Proof.
  induction p as [|c p IH]; [done |]. simpl.
  destruct (Ascii.eqb c slash); [done |]. by rewrite IH.
Qed.

Lemma components_spec p : components p = spec_components p.
Proof.
  induction p as [|p Hp IH] using path_ind; [done |].
  rewrite components_cons by done.
  unfold spec_components. destruct p as [|c0 p0] eqn:Ep; [done |]. rewrite <- Ep in *.
  clear Ep c0 p0. rewrite split_slash_first.
  destruct (split_first_cases p) as [[Hs E]|[Hs E]].
  - rewrite Hs, ends_with_slash_no_slash by done. by rewrite E.
  - rewrite Hs, (ends_with_slash_tail p Hs). rewrite IH.
    destruct (decide _) as [Ht|Ht].
    + by rewrite Ht.
    + unfold spec_components.
      destruct (split_first p).2 as [|c1 p1] eqn:Et; [done |].
      destruct (ends_with_slash (String c1 p1)); [|done].
      pose proof (split_slash_nonempty (String c1 p1)).
      cbn [removelast]. by destruct (split_slash (String c1 p1)).
Qed.

End separator_facts.

(** * The enumeration of a subtree *)

Section list_facts.

Context {T : Type}.
Variable range : gmap string (pathTreeNode T) → list (string * pathTreeNode T).
(** All that is known of the order of [range]: it visits every entry of the
    map once. *)
Hypothesis range_perm : ∀ m, range m ≡ₚ map_to_list m.

Implicit Types n m ch : pathTreeNode T.
Implicit Types next : list (pathTreeNode T).
Implicit Types items : gmap string T.

Lemma node_size_children n :
  node_size n = S (sum_list_with node_size (range (children n)).*2).
Proof.
  destruct n as [nm pth val chs]. cbn [node_size children]. f_equal.
  rewrite map_fold_foldr, (range_perm chs).
  induction (map_to_list chs) as [|[k ch] l IH]; [done |].
  cbn. by rewrite IH.
Qed.

Lemma elem_of_range n ch :
  ch ∈ (range (children n)).*2 ↔ ∃ c, children n !! c = Some ch.
Proof.
  rewrite (range_perm (children n)). rewrite list_elem_of_fmap. split.
  - intros ([c ch'] & -> & H). exists c. by apply elem_of_map_to_list in H.
  - intros [c H]. exists (c, ch). split; [done |]. by apply elem_of_map_to_list.
Qed.

Lemma push_children next (l : list (string * pathTreeNode T)) :
  foldl (λ nx kv, nx ++ [kv.2]) next l = next ++ l.*2.
Proof.
  revert next. induction l as [|kv l IH]; intros next; simpl.
  - by rewrite app_nil_r.
  - rewrite IH. by rewrite <- app_assoc.
Qed.

Lemma listByPath_loop_step fuel next n items :
  listByPath_loop range (S fuel) (next ++ [n]) items =
  listByPath_loop range fuel (next ++ (range (children n)).*2)
    (match value n with Some v => <[path n := v]> items | None => items end).
Proof.
  cbn [listByPath_loop]. by rewrite last_snoc, removelast_last, push_children.
Qed.

Lemma stack_size_snoc next n :
  stack_size (next ++ [n]) = (stack_size next + node_size n)%nat.
Proof. unfold stack_size. rewrite sum_list_with_app. simpl. lia. Qed.

Lemma in_stack_snoc next n m :
  in_stack (next ++ [n]) m ↔
  in_stack (next ++ (range (children n)).*2) m ∨ m = n.
Proof.
  unfold in_stack, in_subtree. split.
  - intros (n0 & [Hin|Hin]%elem_of_app & cs & Hd).
    + left. exists n0. split; [apply elem_of_app; by left | eauto].
    + apply list_elem_of_singleton in Hin as ->.
      destruct cs as [|c cs]; simpl in Hd; [right; congruence |].
      destruct (children n !! c) as [ch|] eqn:E; [|done].
      left. exists ch. split; [|eauto].
      apply elem_of_app. right. apply elem_of_range. eauto.
  - intros [(n0 & [Hin|Hin]%elem_of_app & cs & Hd) | ->].
    + exists n0. split; [apply elem_of_app; by left | eauto].
    + apply elem_of_range in Hin as [c Hc].
      exists n. split; [apply elem_of_app; right; by apply list_elem_of_singleton |].
      exists (c :: cs). simpl. by rewrite Hc.
    + exists n. split; [apply elem_of_app; right; by apply list_elem_of_singleton |].
      by exists [].
Qed.

(** The loop ends within the number of nodes below the stack, and returns
    the entries it was given and entries of the nodes below the stack. *)
Lemma listByPath_loop_spec fuel next items :
  (stack_size next ≤ fuel)%nat →
  ∃ items', listByPath_loop range fuel next items = Done items' ∧
    (∀ k v, items' !! k = Some v →
       items !! k = Some v ∨
       ∃ m, in_stack next m ∧ path m = k ∧ value m = Some v) ∧
    (∀ k, is_Some (items !! k) → is_Some (items' !! k)) ∧
    (∀ m, in_stack next m → is_Some (value m) → is_Some (items' !! path m)).
Proof.
  revert next items. induction fuel as [|fuel IH]; intros next items Hf.
  - destruct next as [|n next]; [|destruct n; unfold stack_size in Hf; simpl in Hf; lia].
    exists items. repeat split; [by left | done |].
    intros m (n & Hin & _). by apply elem_of_nil in Hin.
  - destruct (last next) as [n|] eqn:El.
    2:{ apply last_None in El as ->. exists items. repeat split; [by left | done |].
        intros m (n & Hin & _). by apply elem_of_nil in Hin. }
    apply last_Some in El as [next0 ->].
    rewrite listByPath_loop_step.
    rewrite stack_size_snoc, node_size_children in Hf.
    destruct (IH (next0 ++ (range (children n)).*2)
                (match value n with Some v => <[path n := v]> items | None => items end))
      as (items' & Hrun & Hsound & Hkeep & Hcover).
    { unfold stack_size in *. rewrite sum_list_with_app. lia. }
    exists items'. split; [done |]. split; [|split].
    + intros k v Hk. destruct (Hsound k v Hk) as [Hi|(m & Hm & Hp & Hv)].
      * destruct (value n) as [vn|] eqn:Ev; [|by left].
        destruct (decide (path n = k)) as [<-|Hne].
        -- rewrite lookup_insert_eq in Hi. simplify_eq.
           right. exists n. split; [|done]. apply in_stack_snoc. by right.
        -- rewrite lookup_insert_ne in Hi by done. by left.
      * right. exists m. split; [|done]. apply in_stack_snoc. by left.
    + intros k Hk. apply Hkeep. destruct (value n); [|done].
      destruct (decide (path n = k)) as [<-|Hne].
      * rewrite lookup_insert_eq. eauto.
      * by rewrite lookup_insert_ne.
    + intros m [Hm| ->]%in_stack_snoc Hv; [by apply Hcover |].
      apply Hkeep. destruct Hv as [v ->]. rewrite lookup_insert_eq. eauto.
Qed.

(** More budget than needed changes nothing. *)
Lemma listByPath_loop_more fuel fuel' next items r :
  listByPath_loop range fuel next items = Done r → (fuel ≤ fuel')%nat →
  listByPath_loop range fuel' next items = Done r.
Proof.
  revert fuel' next items. induction fuel as [|fuel IH]; intros fuel' next items H Hle.
  - destruct (last next) eqn:El; simpl in H; rewrite El in H; [done |].
    destruct fuel'; simpl; by rewrite El.
  - destruct (last next) as [n|] eqn:El.
    + destruct fuel' as [|fuel']; [lia |].
      apply last_Some in El as [next0 ->].
      rewrite listByPath_loop_step in *. apply IH; [done | lia].
    + simpl in H. rewrite El in H. destruct fuel'; simpl; by rewrite El.
Qed.

Lemma in_stack_singleton n m : in_stack [n] m ↔ in_subtree n m.
Proof.
  unfold in_stack. split.
  - by intros (n0 & ->%list_elem_of_singleton & H).
  - intros H. exists n. split; [by apply list_elem_of_singleton | done].
Qed.

Lemma listByPath_spec n :
  ∃ items, listByPath range n ∅ = Done items ∧
    (∀ k v, items !! k = Some v →
       ∃ m, in_subtree n m ∧ path m = k ∧ value m = Some v) ∧
    (∀ m, in_subtree n m → is_Some (value m) → is_Some (items !! path m)).
Proof.
  destruct (listByPath_loop_spec (node_size n) [n] ∅)
    as (items & Hrun & Hsound & _ & Hcover).
  { unfold stack_size. simpl. lia. }
  exists items. split; [done |]. split.
  - intros k v Hk. destruct (Hsound k v Hk) as [Hi|(m & Hm & ?)]; [done |].
    exists m. by rewrite <- in_stack_singleton.
  - intros m Hm. apply Hcover. by apply in_stack_singleton.
Qed.

End list_facts.

(** * Assigned paths and the values found for them *)

Section key_facts.

Context {T : Type}.
Variable zero : T.
Implicit Types n m ch : pathTreeNode T.
Implicit Types t : pathTree T.
Implicit Types p q a : string.
Implicit Types cs : list string.
Implicit Types ops : list (string * T).

(** Below a first component that is not empty, and directly below the
    root, the path of a node is its parent's path, a separator and its
    name. *)
Lemma built_child_path ops t cs par d ch :
  Assigns ops = Done t →
  descend (root t) cs = Some par → children par !! d = Some ch →
  name ch = d ∧
  (cs = [] → path ch = d) ∧
  (∀ c cs', cs = c :: cs' → c ≠ EmptyString →
            path ch = path par +:+ String slash d).
Proof.
  intros Hb Hp Hc.
  assert (descend (root t) (cs ++ [d]) = Some ch) as Hd.
  { rewrite descend_app, Hp. simpl. by rewrite Hc. }
  pose proof (built_names_ok _ _ Hb _ _ Hd) as Hn.
  rewrite last_snoc in Hn. split; [by destruct cs; naive_solver |].
  rewrite (built_paths_ok _ _ Hb _ _ Hd). split.
  - intros ->. change ([] ++ [d]) with [d]. unfold node_path.
    change (curLen_from 0 [d]) with (0 + len d). rewrite Z.add_0_l.
    unfold len. rewrite Nat2Z.id. apply take_all.
  - intros c cs' -> Hne.
    rewrite (built_paths_ok _ _ Hb _ _ Hp).
    change ((c :: cs') ++ [d]) with (c :: (cs' ++ [d])).
    rewrite !node_path_join by done.
    change (c :: (cs' ++ [d])) with ((c :: cs') ++ [d]).
    by rewrite join_snoc.
Qed.

Lemma keys_canonical_snoc ops p v :
  keys_canonical (ops ++ [(p, v)]) = true ↔
  keys_canonical ops = true ∧ ends_with_slash p = false.
Proof.
  unfold keys_canonical. rewrite forallb_app. simpl.
  rewrite andb_true_iff, andb_true_r, negb_true_iff. done.
Qed.

Lemma components_inj p q :
  ends_with_slash p = false → ends_with_slash q = false →
  components p = components q → p = q.
Proof.
  intros Hp Hq E. rewrite <- (join_components p Hp), <- (join_components q Hq).
  by rewrite E.
Qed.

Lemma items_of_key_canonical ops k :
  keys_canonical ops = true → is_Some (items_of ops !! k) →
  ends_with_slash k = false.
Proof.
  induction ops as [|[p v] ops IH] using rev_ind; intros Hc [x Hx].
  - unfold items_of in Hx. cbn [foldl] in Hx. by rewrite lookup_empty in Hx.
  - apply keys_canonical_snoc in Hc as [Hc Hp].
    rewrite items_of_snoc in Hx.
    destruct (decide (p = k)) as [->|Hne]; [done |].
    rewrite lookup_insert_ne in Hx by done. apply IH; eauto.
Qed.

Lemma assigned_items ops p :
  keys_canonical ops = true → ends_with_slash p = false →
  assigned ops !! components p = items_of ops !! p.
Proof.
  intros Hc Hp. induction ops as [|[k v] ops IH] using rev_ind; [done |].
  apply keys_canonical_snoc in Hc as [Hc Hk].
  rewrite assigned_snoc, items_of_snoc.
  destruct (decide (k = p)) as [->|Hne].
  - by rewrite !lookup_insert_eq.
  - rewrite !lookup_insert_ne; [by apply IH | done |].
    intros E. by apply Hne, components_inj.
Qed.

Lemma assigned_Some_key ops cs v :
  keys_canonical ops = true → assigned ops !! cs = Some v →
  components (join cs) = cs ∧ items_of ops !! join cs = Some v.
Proof.
  induction ops as [|[k w] ops IH] using rev_ind; intros Hc Hv.
  - unfold assigned in Hv. cbn [foldl] in Hv. by rewrite lookup_empty in Hv.
  - apply keys_canonical_snoc in Hc as [Hc Hk].
    rewrite assigned_snoc in Hv. rewrite items_of_snoc.
    destruct (decide (components k = cs)) as [<-|Hne].
    + rewrite lookup_insert_eq in Hv. simplify_eq.
      rewrite join_components by done. by rewrite lookup_insert_eq.
    + rewrite lookup_insert_ne in Hv by done.
      destruct (IH Hc Hv) as [E Hi]. split; [done |].
      rewrite lookup_insert_ne; [done |]. intros ->. by apply Hne.
Qed.

Lemma is_best_at_end n cs m :
  descend n cs = Some m → has_value m = true → is_best n cs cs m.
Proof.
  intros Hd Hv. split; [done |]. repeat split; try done.
  intros cs'' Hp Hlen. apply prefix_length in Hp. lia.
Qed.


(** An assigned path that does not begin with a separator is found, with
    itself as the matched path. *)
Lemma Lookup_exact_key ops t p v :
  Assigns ops = Done t → keys_canonical ops = true →
  starts_with_slash p = false → items_of ops !! p = Some v →
  Lookup zero t p = Done (p, v, true).
Proof.
  intros Hb Hc Hs Hi.
  assert (ends_with_slash p = false) as He
    by (eapply items_of_key_canonical; eauto).
  pose proof (built_explicit _ _ (components p) Hb) as Hx.
  rewrite assigned_items, Hi in Hx by done.
  unfold explicit in Hx.
  destruct (descend (root t) (components p)) as [m|] eqn:Hd; [|done].
  simpl in Hx.
  assert (has_value m = true) as Hv by (unfold has_value; by rewrite Hx).
  rewrite (Lookup_of_best zero t p _ m v (is_best_at_end _ _ _ Hd Hv) Hx).
  rewrite (built_paths_ok _ _ Hb _ _ Hd).
  rewrite (node_path_components _ p) by done.
  by rewrite join_components.
Qed.



End key_facts.

(** * Where [ListByPath] starts *)

Section start_facts.

Context {T : Type}.
Variable range : gmap string (pathTreeNode T) → list (string * pathTreeNode T).
Implicit Types t : pathTree T.

Lemma ListByPath_start t p :
  ListByPath range t p =
  match descend (root t) (components p) with
  | None => Done None
  | Some n => items ← listByPath range n ∅; Done (Some items)
  end.
Proof.
  unfold ListByPath. destruct (String.eqb_spec p EmptyString) as [->|Hp]; [done |].
  by rewrite get_descend.
Qed.

(** The paths [set] writes depend on the assigned path only up to the
    length [curPathLen] reaches. *)
Lemma set_at_orig_ext o1 o2 cur (n : pathTreeNode T) cs v :
  0 ≤ cur →
  (∀ k, (k ≤ Z.to_nat (curLen_from cur cs))%nat → take k o1 = take k o2) →
  set_at o1 cur n cs v = set_at o2 cur n cs v.
Proof.
  revert cur n. induction cs as [|c cs IH]; intros cur n Hc Hk; [done |].
  cbn [set_at]. pose proof (advance_ge cur c Hc) as Ha.
  change (curLen_from cur (c :: cs)) with (curLen_from (advance cur c) cs) in Hk.
  pose proof (curLen_from_ge (advance cur c) cs ltac:(lia)) as Hge.
  rewrite (Hk (Z.to_nat (advance cur c))) by lia.
  f_equal. f_equal. apply IH; [lia | done].
Qed.

Lemma Set_trailing_slash t p v :
  p ≠ EmptyString → ends_with_slash p = false →
  Set_ t (p +:+ String slash EmptyString) v = Set_ t p v.
Proof.
  intros Hp He. rewrite !Set_Done, components_trailing_slash by done.
  f_equal. f_equal. apply set_at_orig_ext; [done |].
  intros k Hk. apply take_app_le.
  pose proof (curLen_le_orig p (components p) ltac:(done)).
  unfold len in *. lia.
Qed.

End start_facts.

(** * The properties of the path tree *)

Section claims.

Context {T : Type}.
Variable zero : T.
Variable range : gmap string (pathTreeNode T) → list (string * pathTreeNode T).
Hypothesis range_perm : ∀ m, range m ≡ₚ map_to_list m.

Implicit Types n m : pathTreeNode T.
Implicit Types t : pathTree T.
Implicit Types p q a : string.
Implicit Types cs : list string.
Implicit Types ops : list (string * T).

(** For every tree, [Lookup] reports the [path] field and the value of
    the last node on the walk that [lookup] retains. *)
Lemma Lookup_last_recorded t p :
  Lookup zero t p =
  Done match last (recorded (visited (root t) (components p))) with
       | Some (q, v) => (q, v, true)
       | None => (EmptyString, zero, false)
       end.
Proof. rewrite Lookup_best. by rewrite last_recorded. Qed.

(** C9. In a tree built by a sequence of [Set], the path [Lookup] reports
    as matched is a prefix of the path looked up, and so not longer. *)
Theorem Lookup_matched_path_prefix ops t p q v :
  Assigns ops = Done t →
  Lookup zero t p = Done (q, v, true) →
  HasPrefix p q = true ∧ len q ≤ len p.
Proof.
  intros Hb Hl. pose proof (Lookup_prefix_built zero _ _ _ _ _ Hb Hl) as Hp.
  split; [by apply HasPrefix_true |].
  apply is_prefix_length in Hp. unfold len. lia.
Qed.

(** A value set at [cs] leaves the deepest valued node along [csq] as it
    is when that node lies deeper than [cs]. *)
Lemma is_best_set_at_deeper orig cur n cs v csq cs' m :
  (length cs < length cs')%nat → is_best n csq cs' m →
  ∃ m', is_best (set_at orig cur n cs v) csq cs' m' ∧
        path m' = path m ∧ value m' = value m.
Proof.
  intros Hlt (Hp & Hd & Hv & Hl).
  destruct (descend_set_at_old orig cur n cs v cs' m Hd)
    as (m' & Hd' & _ & Hpath & Hval).
  assert (cs' ≠ cs) as Hne by (intros ->; lia).
  rewrite decide_False in Hval by done.
  exists m'. split; [|done]. split; [done |]. split; [done |]. split.
  - unfold has_value in *. by rewrite Hval.
  - intros cs'' Hp'' Hlen. rewrite explicit_set_at.
    rewrite decide_False; [by apply Hl | intros ->; lia].
Qed.

Lemma best_match_set_at_nearer orig cur n cs v csq cs0 :
  cs0 `prefix_of` csq → (length cs < length cs0)%nat →
  is_Some (explicit n cs0) →
  best_match (visited (set_at orig cur n cs v) csq) ≫= report =
  best_match (visited n csq) ≫= report.
Proof.
  intros Hp0 Hlt [w Hw].
  pose proof (best_match_visited n csq) as Hold.
  destruct (best_match (visited n csq)) as [m|].
  - destruct Hold as (cs' & Hb).
    assert (length cs0 ≤ length cs')%nat as Hle.
    { destruct (decide (length cs' < length cs0)%nat) as [Hc|]; [|lia].
      destruct Hb as (_ & _ & _ & Hl). rewrite (Hl cs0 Hp0 Hc) in Hw. done. }
    destruct (is_best_set_at_deeper orig cur n cs v csq cs' m ltac:(lia) Hb)
      as (m' & Hb' & Hp & Hv).
    rewrite (best_match_is_best _ _ _ _ Hb'). unfold report. simpl.
    by rewrite Hp, Hv.
  - rewrite (Hold cs0 Hp0) in Hw. done.
Qed.

(** C6, amended. [Set] of [p] always succeeds; afterwards [Lookup] of [p]
    finds the value set; the explicit value at any other components is as
    before; where [p] had a node already no node appears or disappears;
    every node keeps its name and path; [Lookup] returns as before for
    every path that does not inherit from [p], which is one whose
    components do not begin with those of [p] or one on whose walk a node
    deeper than that of [p] carried a value; and for a path that does
    inherit from [p] it returns what it returns for [p]. *)
Theorem Set_frame t p v :
  ∃ t', Set_ t p v = Done t' ∧
    (∃ q, Lookup zero t' p = Done (q, v, true)) ∧
    explicit (root t') (components p) = Some v ∧
    (∀ cs, cs ≠ components p →
       explicit (root t') cs = explicit (root t) cs) ∧
    (is_Some (descend (root t) (components p)) →
       ∀ cs, is_Some (descend (root t') cs) ↔ is_Some (descend (root t) cs)) ∧
    (∀ cs m, descend (root t) cs = Some m →
       ∃ m', descend (root t') cs = Some m' ∧
             name m' = name m ∧ path m' = path m) ∧
    (∀ q, ¬ components p `prefix_of` components q →
       Lookup zero t' q = Lookup zero t q) ∧
    (∀ q cs, cs `prefix_of` components q →
       (length (components p) < length cs)%nat →
       is_Some (explicit (root t) cs) →
       Lookup zero t' q = Lookup zero t q) ∧
    (∀ q, components p `prefix_of` components q →
       (∀ cs, cs `prefix_of` components q →
              (length (components p) < length cs)%nat →
              explicit (root t) cs = None) →
       Lookup zero t' q = Lookup zero t' p).
Proof.
  rewrite Set_Done. eexists; split; [done |]. cbn [root].
  destruct (descend_set_at_same p 0 (root t) (components p) v) as (m & Hd & Hv).
  assert (has_value m = true) as Hh by (unfold has_value; by rewrite Hv).
  split; [|split; [|split; [|split; [|split; [|split; [|split]]]]]].
  - exists (path m). eapply Lookup_of_best; [|done]. by apply is_best_at_end.
  - by rewrite explicit_set_at, decide_True.
  - intros cs Hne. by rewrite explicit_set_at, decide_False.
  - intros Hex cs. by apply descend_set_at_shape.
  - intros cs m0 Hd0.
    destruct (descend_set_at_old p 0 (root t) (components p) v cs m0 Hd0)
      as (m' & ? & ? & ? & _). eauto.
  - intros q Hq. rewrite !Lookup_best. cbn [root].
    by rewrite best_match_set_at_frame.
  - intros q cs Hcs Hlen Hx. rewrite !Lookup_best. cbn [root].
    by rewrite (best_match_set_at_nearer _ _ _ _ _ _ cs).
  - intros q Hq Hnone.
    transitivity (Done (A:=string * T * bool) (path m, v, true)).
    + eapply Lookup_of_best; [|done]. cbn [root].
      split; [done |]. split; [done |]. split; [done |].
      intros cs Hcs Hlen. rewrite explicit_set_at.
      rewrite decide_False; [by apply Hnone |]. intros ->. lia.
    + symmetry. eapply Lookup_of_best; [|done]. by apply is_best_at_end.
Qed.


(** C4, amended. The operations consume the components that splitting at
    every separator yields, short of the empty one after a trailing
    separator: [Set] never fails and puts the value at these components in
    a tree whose nodes are named after their components, [Lookup] walks
    along them and [ListByPath] starts at the node they lead to. A leading
    separator gives an empty first component and a doubled one an empty
    component in between; a trailing one gives none. *)
Theorem components_by_separator ops t p v :
  Assigns ops = Done t →
  (∃ t', Set_ t p v = Done t' ∧
         root t' = set_at p 0 (root t) (spec_components p) v ∧
         names_ok (root t') ∧
         ∃ m, descend (root t') (spec_components p) = Some m ∧
              value m = Some v) ∧
  Lookup zero t p =
    Done match last (recorded (visited (root t) (spec_components p))) with
         | Some (q, w) => (q, w, true)
         | None => (EmptyString, zero, false)
         end ∧
  ListByPath range t p =
    match descend (root t) (spec_components p) with
    | None => Done None
    | Some n => items ← listByPath range n ∅; Done (Some items)
    end ∧
  spec_components ("/" +:+ p) = EmptyString :: spec_components p ∧
  (∀ a, a ≠ EmptyString → ends_with_slash a = false →
        spec_components (a +:+ "//" +:+ p) =
        spec_components a ++ EmptyString :: spec_components p) ∧
  (p ≠ EmptyString → ends_with_slash p = false →
        spec_components (p +:+ "/") = spec_components p).
Proof.
  intros Hb. rewrite <- !components_spec.
  split; [|split; [|split; [|split; [|split]]]].
  - rewrite Set_Done. eexists; split; [done |]. cbn [root].
    split; [done |]. split.
    + apply names_ok_set. by eapply built_names_ok.
    + apply descend_set_at_same.
  - rewrite Lookup_best. by rewrite last_recorded.
  - apply ListByPath_start.
  - by rewrite components_cons.
  - intros a Ha He. rewrite <- ?components_spec.
    change (a +:+ "//" +:+ p) with (a +:+ String slash (String slash p)).
    by rewrite components_app, (components_cons (String slash p)).
  - intros Hp He. rewrite <- ?components_spec.
    by apply components_trailing_slash.
Qed.

(** C7. On the empty tree [Lookup] finds nothing for any path and
    [ListByPath] of the empty path is an empty map; and on every tree no
    operation panics: [Set] returns a tree, [Lookup] a triple whose flag is
    [false] exactly when no node on the walk carries a value, [ListByPath]
    a map that is [nil] exactly when there is no node at the path. *)
Theorem absence_is_not_a_fault :
  (∀ p, Lookup zero zeroTree p = Done (EmptyString, zero, false)) ∧
  ListByPath range zeroTree EmptyString = Done (Some ∅) ∧
  (∀ t p v, ∃ t', Set_ t p v = Done t') ∧
  (∀ t p, ∃ q v ok, Lookup zero t p = Done (q, v, ok) ∧
     (ok = false ↔
      ∀ cs, cs `prefix_of` components p → explicit (root t) cs = None)) ∧
  (∀ t p, ∃ r, ListByPath range t p = Done r ∧
     (r = None ↔ descend (root t) (components p) = None)).
Proof.
  split; [|split; [|split; [|split]]].
  - intros p. apply Lookup_not_found. intros cs _. unfold explicit.
    cbn [root zeroTree]. destruct (descend _ cs) as [m|] eqn:E; [|done].
    by apply descend_fresh in E as [-> ->].
  - rewrite ListByPath_start. cbn [components components_loop String.length descend root zeroTree].
    destruct (listByPath_spec range range_perm zeroNode) as (items & -> & Hsound & _).
    cbn. do 2 f_equal. apply map_empty. intros k.
    destruct (items !! k) as [v|] eqn:E; [|done].
    destruct (Hsound k v E) as (m & [cs Hm] & _ & Hv).
    by apply descend_fresh in Hm as [-> ->].
  - intros t p v. rewrite Set_Done. eauto.
  - intros t p. rewrite Lookup_best.
    pose proof (best_match_visited (root t) (components p)) as Hb.
    destruct (best_match _) as [m|] eqn:Em.
    + pose proof (best_match_Some_value _ _ Em) as Hv.
      destruct Hb as (cs' & Hp & Hd & _ & _).
      unfold report, has_value in *. cbn. destruct (value m) as [w|] eqn:Ew; [|done].
      cbn. exists (path m), w, true. split; [done |]. split; [done |].
      intros Hn. specialize (Hn cs' Hp). unfold explicit in Hn.
      rewrite Hd in Hn. simpl in Hn. congruence.
    + cbn. exists EmptyString, zero, false. done.
  - intros t p. rewrite ListByPath_start.
    destruct (descend (root t) (components p)) as [n|]; [|by eexists].
    destruct (listByPath_spec range range_perm n) as (items & -> & _).
    cbn. eexists; split; [done |]. done.
Qed.

(** C8. Every operation returns: a step of a traversal loop leaves a
    strictly shorter path, the loops of [set], [lookup] and [get] end
    within as many steps as the path has bytes and the loop of [listByPath]
    within as many as the subtree has nodes, each with the same result for
    any larger budget, and so [Set], [Lookup] and [ListByPath] return a
    result for every tree and every path. *)
Theorem operations_terminate t p v :
  (p ≠ EmptyString →
     ∃ h tl, pathTakeFirst p = Done (h, tl) ∧
             (String.length tl < String.length p)%nat) ∧
  (∃ t', Set_ t p v = Done t' ∧
     ∀ fuel, (String.length p ≤ fuel)%nat →
             set_loop fuel p 0 (root t) p v = Done (root t')) ∧
  (∃ r found, Lookup zero t p = Done r ∧
     ∀ fuel, (String.length p ≤ fuel)%nat →
             lookup_loop fuel (Some (root t)) p None = Done found) ∧
  (∃ found, ∀ fuel, (String.length p ≤ fuel)%nat →
             get_loop fuel (Some (root t)) p = Done found) ∧
  (∃ r, ListByPath range t p = Done r) ∧
  (∀ n, ∃ items, ∀ fuel, (node_size n ≤ fuel)%nat →
             listByPath_loop range fuel [n] ∅ = Done items).
Proof.
  split; [|split; [|split; [|split; [|split]]]].
  - intros Hp. rewrite pathTakeFirst_Done.
    exists (split_first p).1, (split_first p).2.
    split; [by destruct (split_first p) | by apply split_first_tail_length].
  - rewrite Set_Done. eexists; split; [done |]. intros fuel Hf. cbn [root].
    by apply (set_loop_set_at _ _ _ _ _ _ []).
  - rewrite Lookup_best. do 2 eexists. split; [done |].
    intros fuel Hf. by apply lookup_loop_visited.
  - eexists. intros fuel Hf. by apply get_loop_descend.
  - rewrite ListByPath_start.
    destruct (descend (root t) (components p)) as [n|]; [|by eexists].
    destruct (listByPath_spec range range_perm n) as (items & -> & _).
    by eexists.
  - intros n. destruct (listByPath_spec range range_perm n) as (items & Hrun & _).
    exists items. intros fuel Hf. by eapply listByPath_loop_more.
Qed.

End claims.

(** * The properties at concrete trees *)

Section examples.

Lemma range_enum_perm (m : gmap string (pathTreeNode Z)) :
  range_enum m ≡ₚ map_to_list m.
Proof. reflexivity. Qed.

Lemma simple_tree_built : Assigns simple_ops = Done simple_tree.
Proof. vm_compute. reflexivity. Qed.

(** C9 at [TestPathTree_simple]: the match for ["foo/bar/baz"]. *)
Lemma Lookup_matched_path_prefix_witness :
  Lookup 0 simple_tree "foo/bar/baz" = Done ("foo/bar", 20, true) ∧
  HasPrefix "foo/bar/baz" "foo/bar" = true ∧
  len "foo/bar" ≤ len "foo/bar/baz".
Proof.
  split; [vm_compute; reflexivity |].
  apply (Lookup_matched_path_prefix 0 simple_ops simple_tree
           "foo/bar/baz" "foo/bar" 20).
  - vm_compute. reflexivity.
  - vm_compute. reflexivity.
Defined.



(** C3 fails where the first component is empty: after [Set("/a", 1)] the
    node named ["a"] below the node of the empty component has the path
    ["/"], which is neither its parent's path joined with its name nor its
    name. *)
Theorem leading_separator_node_path :
  ∃ t par ch,
    Set_ zeroTree "/a" 1 = Done t ∧
    children (root t) !! "" = Some par ∧
    children par !! "a" = Some ch ∧
    name par = "" ∧ path par = "" ∧
    name ch = "a" ∧ path ch = "/" ∧
    path ch ≠ path par +:+ "/" +:+ name ch ∧
    path ch ≠ name ch.
Proof.
  do 3 eexists.
  split; [vm_compute; reflexivity |].
  split; [vm_compute; reflexivity |].
  split; [vm_compute; reflexivity |].
  repeat split; try reflexivity; vm_compute; discriminate.
Qed.

(** C4, as stated, fails for a trailing separator: ["foo/"] is assigned
    where ["foo"] is, and no node is made for an empty component below
    it. *)
Lemma trailing_separator_counterexample :
  split_slash "foo/" = ["foo"; ""] ∧
  Set_ (T:=Z) zeroTree "foo/" 1 = Set_ zeroTree "foo" 1 ∧
  ∃ t, Set_ zeroTree "foo/" 1 = Done t ∧
       explicit (root t) ["foo"] = Some 1 ∧
       descend (root t) (split_slash "foo/") = None.
Proof.
  split; [reflexivity |]. split; [vm_compute; reflexivity |].
  eexists. split; [vm_compute; reflexivity |].
  split; vm_compute; reflexivity.
Qed.

(** C4, amended, at [TestPathTree_simple] and the path ["foo//bar"]. *)
Lemma components_by_separator_witness :
  (∃ t', Set_ simple_tree "foo//bar" 7 = Done t' ∧
         root t' = set_at "foo//bar" 0 (root simple_tree)
                     (spec_components "foo//bar") 7 ∧
         names_ok (root t') ∧
         ∃ m, descend (root t') (spec_components "foo//bar") = Some m ∧
              value m = Some 7) ∧
  Lookup 0 simple_tree "foo//bar" =
    Done match last (recorded (visited (root simple_tree)
                                 (spec_components "foo//bar"))) with
         | Some (q, w) => (q, w, true)
         | None => ("", 0, false)
         end ∧
  ListByPath range_enum simple_tree "foo//bar" =
    match descend (root simple_tree) (spec_components "foo//bar") with
    | None => Done None
    | Some n => items ← listByPath range_enum n ∅; Done (Some items)
    end ∧
  spec_components ("/" +:+ "foo//bar") = "" :: spec_components "foo//bar" ∧
  (∀ a, a ≠ "" → ends_with_slash a = false →
        spec_components (a +:+ "//" +:+ "foo//bar") =
        spec_components a ++ "" :: spec_components "foo//bar") ∧
  ("foo//bar" ≠ "" → ends_with_slash "foo//bar" = false →
        spec_components ("foo//bar" +:+ "/") = spec_components "foo//bar").
Proof.
  apply (components_by_separator 0 range_enum simple_ops simple_tree "foo//bar" 7).
  vm_compute. reflexivity.
Defined.


(** C6, as stated, fails for the paths below the one assigned: after
    [Set("foo", 10)], assigning ["foo"] again, with [11], changes what
    [Lookup("foo/bar")] returns. *)
Lemma Set_changes_descendant_lookup :
  ¬ (∀ (t t' : pathTree Z) (p q : string) (v : Z),
       Set_ t p v = Done t' → q ≠ p → Lookup 0 t' q = Lookup 0 t q).
Proof.
  intros H.
  specialize (H (tree_of [("foo", 10)]) (tree_of [("foo", 10); ("foo", 11)])
                "foo" "foo/bar" 11).
  assert (Lookup 0 (tree_of [("foo", 10); ("foo", 11)]) "foo/bar"
          = Done ("foo", 11, true)) as E
    by (vm_compute; reflexivity).
  rewrite H in E;
    [vm_compute in E; discriminate E | vm_compute; reflexivity | discriminate].
Qed.

(** C7 with integer values. *)
Lemma absence_is_not_a_fault_witness :
  (∀ p, Lookup 0 zeroTree p = Done ("", 0, false)) ∧
  ListByPath range_enum zeroTree "" = Done (Some ∅) ∧
  (∀ (t : pathTree Z) p v, ∃ t', Set_ t p v = Done t') ∧
  (∀ (t : pathTree Z) p, ∃ q v ok, Lookup 0 t p = Done (q, v, ok) ∧
     (ok = false ↔
      ∀ cs, cs `prefix_of` components p → explicit (root t) cs = None)) ∧
  (∀ (t : pathTree Z) p, ∃ r, ListByPath range_enum t p = Done r ∧
     (r = None ↔ descend (root t) (components p) = None)).
Proof.
  apply (absence_is_not_a_fault 0 range_enum).
  intros m. reflexivity.
Defined.

(** C8 at [TestPathTree_simple] and the path ["foo/bar/baz"]. *)
Lemma operations_terminate_witness :
  ("foo/bar/baz" ≠ "" →
     ∃ h tl, pathTakeFirst "foo/bar/baz" = Done (h, tl) ∧
             (String.length tl < String.length "foo/bar/baz")%nat) ∧
  (∃ t', Set_ simple_tree "foo/bar/baz" 40 = Done t' ∧
     ∀ fuel, (String.length "foo/bar/baz" ≤ fuel)%nat →
             set_loop fuel "foo/bar/baz" 0 (root simple_tree) "foo/bar/baz" 40
             = Done (root t')) ∧
  (∃ r found, Lookup 0 simple_tree "foo/bar/baz" = Done r ∧
     ∀ fuel, (String.length "foo/bar/baz" ≤ fuel)%nat →
             lookup_loop fuel (Some (root simple_tree)) "foo/bar/baz" None
             = Done found) ∧
  (∃ found, ∀ fuel, (String.length "foo/bar/baz" ≤ fuel)%nat →
             get_loop fuel (Some (root simple_tree)) "foo/bar/baz" = Done found) ∧
  (∃ r, ListByPath range_enum simple_tree "foo/bar/baz" = Done r) ∧
  (∀ n, ∃ items, ∀ fuel, (node_size n ≤ fuel)%nat →
             listByPath_loop range_enum fuel [n] ∅ = Done items).
Proof.
  apply (operations_terminate 0 range_enum range_enum_perm simple_tree "foo/bar/baz" 40).
Defined.

End examples.

(** * Further properties of the path tree *)

Section more_lookup.

Context {T : Type}.
Variable zero : T.
Implicit Types n m : pathTreeNode T.
Implicit Types t : pathTree T.
Implicit Types p q a : string.
Implicit Types cs pre : list string.
Implicit Types ops : list (string * T).
Implicit Types M : gmap (list string) T.

(** X1. [pathTakeFirst] never panics and takes a path apart at its first
    separator: the head has no separator, and the path is the head alone,
    with an empty tail, or the head, a separator and the tail. *)
Theorem pathTakeFirst_decomposes p :
  ∃ h tl, pathTakeFirst p = Done (h, tl) ∧ has_slash h = false ∧
    (has_slash p = false → h = p ∧ tl = EmptyString) ∧
    (has_slash p = true → p = h +:+ "/" +:+ tl) ∧
    (tl ≠ EmptyString → has_slash p = true).
Proof.
  rewrite pathTakeFirst_Done.
  exists (split_first p).1, (split_first p).2.
  split; [by destruct (split_first p) |].
  split; [apply split_first_head_no_slash |].
  split; [|split].
  - intros H. by rewrite split_first_no_slash.
  - apply split_first_slash.
  - intros H. destruct (has_slash p) eqn:E; [done |].
    by rewrite split_first_no_slash in H.
Qed.

Lemma longest_assigned_spec M pre cs :
  match longest_assigned M pre cs with
  | Some (cs0, v) =>
      ∃ k, cs0 = pre ++ k ∧ k `prefix_of` cs ∧ M !! cs0 = Some v ∧
           ∀ k', k' `prefix_of` cs → (length k < length k')%nat →
                 M !! (pre ++ k') = None
  | None => ∀ k, k `prefix_of` cs → M !! (pre ++ k) = None
  end.
Proof.
  revert pre. induction cs as [|c cs IH]; intros pre; cbn [longest_assigned].
  - destruct (M !! pre) as [v|] eqn:E; cbn.
    + exists []. rewrite app_nil_r. repeat split; try done.
      intros k' Hk' Hlen. apply prefix_nil_inv in Hk' as ->. simpl in Hlen. lia.
    + intros k Hk. apply prefix_nil_inv in Hk as ->. by rewrite app_nil_r.
  - specialize (IH (pre ++ [c])).
    destruct (longest_assigned M (pre ++ [c]) cs) as [[cs0 v]|].
    + destruct IH as (k & -> & Hk & Hv & Hl). exists (c :: k).
      rewrite <- app_assoc in *. repeat split; try done.
      { by apply prefix_cons. }
      intros k' Hk' Hlen.
      destruct (prefix_cons_cases _ _ _ Hk') as [->|(l' & -> & Hl')];
        [simpl in Hlen; lia |].
      specialize (Hl l' Hl'). rewrite <- app_assoc in Hl. apply Hl.
      simpl in Hlen. lia.
    + destruct (M !! pre) as [v|] eqn:E; cbn.
      * exists []. rewrite app_nil_r. repeat split; try done; [apply prefix_nil |].
        intros k' Hk' Hlen.
        destruct (prefix_cons_cases _ _ _ Hk') as [->|(l' & -> & Hl')];
          [simpl in Hlen; lia |].
        specialize (IH l' Hl'). by rewrite <- app_assoc in IH.
      * intros k Hk.
        destruct (prefix_cons_cases _ _ _ Hk) as [->|(l' & -> & Hl')].
        -- by rewrite app_nil_r.
        -- specialize (IH l' Hl'). by rewrite <- app_assoc in IH.
Qed.

Lemma explicit_Some_descend n cs v :
  explicit n cs = Some v → ∃ m, descend n cs = Some m ∧ value m = Some v.
Proof.
  unfold explicit. destruct (descend n cs) as [m|]; [|done].
  simpl. eauto.
Qed.

(** X2. In a tree built by a sequence of [Set], [Lookup] returns the value
    of the longest prefix of the components of the path that was assigned,
    the closest assigned ancestor, with the path of its node; it finds
    nothing when no prefix was assigned. *)
Theorem Lookup_closest_ancestor ops t p :
  Assigns ops = Done t →
  Lookup zero t p =
  Done match longest_assigned (assigned ops) [] (components p) with
       | Some (cs, v) => (node_path cs, v, true)
       | None => (EmptyString, zero, false)
       end.
Proof.
  intros Hb. pose proof (longest_assigned_spec (assigned ops) [] (components p)) as H.
  destruct (longest_assigned _ _ _) as [[cs0 v]|].
  - destruct H as (k & -> & Hk & Hv & Hl). cbn [app] in *.
    rewrite <- (built_explicit _ _ _ Hb) in Hv.
    destruct (explicit_Some_descend _ _ _ Hv) as (m & Hd & Hm).
    rewrite <- (built_paths_ok _ _ Hb _ _ Hd).
    apply (Lookup_of_best zero t p k m v); [|done].
    split; [done |]. split; [done |]. split.
    + unfold has_value. by rewrite Hm.
    + intros k' Hk' Hlen. rewrite (built_explicit _ _ _ Hb). by apply Hl.
  - apply Lookup_not_found. intros k Hk.
    rewrite (built_explicit _ _ _ Hb). by apply H.
Qed.

(** X3. After [Set] of [p], a path below [p] inherits the value: where no
    node strictly below the node of [p] on the way to [q] carried a value,
    [Lookup] of [q] returns what [Lookup] of [p] returns, the value set. *)
Theorem Set_inherited t p v q :
  components p `prefix_of` components q →
  (∀ cs, cs `prefix_of` components q →
         (length (components p) < length cs)%nat →
         explicit (root t) cs = None) →
  ∃ t' matched, Set_ t p v = Done t' ∧
     Lookup zero t' p = Done (matched, v, true) ∧
     Lookup zero t' q = Done (matched, v, true).
Proof.
  intros Hp Hnone. rewrite Set_Done. eexists. 
  destruct (descend_set_at_same p 0 (root t) (components p) v) as (m & Hd & Hv).
  exists (path m). split; [done |].
  assert (has_value m = true) as Hh by (unfold has_value; by rewrite Hv).
  split.
  - eapply Lookup_of_best; [|done]. by apply is_best_at_end.
  - eapply Lookup_of_best; [|done]. cbn [root].
    split; [done |]. split; [done |]. split; [done |].
    intros cs Hcs Hlen. rewrite explicit_set_at.
    rewrite decide_False; [by apply Hnone |]. intros ->. lia.
Qed.

(** X4. [lookup] returns the deepest node on the walk that carries a value:
    a node with a value, reached along a prefix of the components, below
    which no node on the walk carries one; it returns [nil] exactly when no
    node on the walk carries a value; and it returns the node [get] finds
    whenever that node carries a value. *)
Theorem lookup_deepest_valued n p :
  ∃ r, lookup n p = Done r ∧
    (∀ m, r = Some m → ∃ cs, is_best n (components p) cs m) ∧
    (r = None ↔
     ∀ cs, cs `prefix_of` components p → explicit n cs = None) ∧
    (∀ m, get n p = Done (Some m) → value m ≠ None → r = Some m).
Proof.
  rewrite lookup_visited, get_descend. eexists; split; [done |].
  pose proof (best_match_visited n (components p)) as Hb.
  split; [|split].
  - intros m Hm. by rewrite Hm in Hb.
  - destruct (best_match _) as [m|]; [|done].
    destruct Hb as (cs & Hp & Hd & Hv & _). split; [done |].
    intros Hn. by destruct (has_value_explicit _ _ _ Hd Hv); apply Hn.
  - intros m [= Hd] Hv. apply best_match_is_best with (components p).
    apply is_best_at_end; [done |]. unfold has_value. by destruct (value m).
Qed.

End more_lookup.

(** * How assignments compose *)

Section more_set.

Context {T : Type}.
Implicit Types n m ch : pathTreeNode T.
Implicit Types t : pathTree T.
Implicit Types p q a : string.
Implicit Types cs pre : list string.
Implicit Types ops : list (string * T).

Lemma Set_is_result t p v : Set_ t p v = Done (Set_result t p v).
Proof. apply Set_Done. Qed.

Lemma Assigns_from_cons t p v ops :
  Assigns_from t ((p, v) :: ops) = Assigns_from (Set_result t p v) ops.
Proof. unfold Assigns_from. cbn [foldl mbind res_bind fst snd]. by rewrite Set_is_result. Qed.

Lemma Assigns_from_zero ops : Assigns ops = Assigns_from zeroTree ops.
Proof. done. Qed.

Lemma elem_of_keys_snoc ops p (v : T) k :
  k ∈ (ops ++ [(p, v)]).*1 ↔ k ∈ ops.*1 ∨ k = p.
Proof.
  rewrite fmap_app, elem_of_app. cbn. rewrite list_elem_of_singleton. done.
Qed.

Lemma built_descend_is_Some ops t cs :
  Assigns ops = Done t →
  is_Some (descend (root t) cs) ↔
  cs = [] ∨ ∃ k, k ∈ ops.*1 ∧ cs `prefix_of` components k.
Proof.
  intros Hb. revert ops t Hb cs. apply (Assigns_ind (λ ops t, ∀ cs, _)).
  - intros cs. cbn [root zeroTree]. split.
    + intros [m Hm]. left. by apply descend_fresh in Hm as [-> _].
    + intros [->|(k & Hk & _)]; [by eexists | by apply elem_of_nil in Hk].
  - intros ops t p v _ IH cs. cbn [root]. split.
    + intros [m' Hm']. destruct (descend (root t) cs) as [m|] eqn:E.
      * destruct (proj1 (IH cs)) as [->|(k & Hk & Hp)]; [by rewrite E | by left |].
        right. exists k. split; [|done]. apply elem_of_keys_snoc. by left.
      * destruct (descend_set_at_new _ _ _ _ _ _ _ Hm' E) as (Hp & _).
        right. exists p. split; [|done]. apply elem_of_keys_snoc. by right.
    + intros [->|(k & [Hk| ->]%elem_of_keys_snoc & Hp)]; [by eexists | |].
      * destruct (proj2 (IH cs)) as [m Hm]; [right; eauto |].
        destruct (descend_set_at_old p 0 (root t) (components p) v cs m Hm)
          as (m' & -> & _). by eexists.
      * eapply descend_prefix_is_Some; [exact Hp |].
        destruct (descend_set_at_same p 0 (root t) (components p) v) as (m & -> & _).
        by eexists.
Qed.

(** X5. The nodes of a built tree are the root and one node for every
    prefix of the components of every assigned path, and no other. *)
Theorem built_nodes ops t cs :
  Assigns ops = Done t →
  is_Some (descend (root t) cs) ↔
  cs = [] ∨ ∃ k, k ∈ ops.*1 ∧ cs `prefix_of` components k.
Proof. apply built_descend_is_Some. Qed.

Lemma set_at_set_at orig cur n cs v w :
  set_at orig cur (set_at orig cur n cs v) cs w = set_at orig cur n cs w.
Proof.
  revert cur n. induction cs as [|c cs IH]; intros cur n; [done |].
  cbn [set_at name path value children]. rewrite lookup_insert_eq, insert_insert_eq.
  by rewrite IH.
Qed.

(** X6. Assigning a path a second time leaves no trace of the first
    value: but for the count of calls the tree is the one a single [Set] of
    the second value gives, and with the same value the one the first [Set]
    gave. *)
Theorem Set_overwrites t p v w :
  ∃ t1 t2 t3,
    Set_ t p v = Done t1 ∧ Set_ t1 p w = Done t2 ∧ Set_ t p w = Done t3 ∧
    root t2 = root t3 ∧ (v = w → root t2 = root t1).
Proof.
  rewrite !Set_Done. do 3 eexists. split; [done |]. rewrite Set_Done.
  split; [done |]. split; [done |]. cbn [root].
  split; [apply set_at_set_at | intros ->; apply set_at_set_at].
Qed.

Lemma fresh_path_eq o1 o2 pre c cs1 cs2 :
  components o1 = pre ++ c :: cs1 → components o2 = pre ++ c :: cs2 →
  take (Z.to_nat (advance (curLen_from 0 pre) c)) o1 =
  take (Z.to_nat (advance (curLen_from 0 pre) c)) o2.
Proof.
  intros H1 H2.
  assert (advance (curLen_from 0 pre) c = curLen_from 0 (pre ++ [c])) as ->
    by (by rewrite curLen_from_app).
  rewrite !take_curLen_orig; [done | |].
  - exists cs2. by rewrite <- app_assoc.
  - exists cs1. by rewrite <- app_assoc.
Qed.

Lemma set_at_comm o1 o2 pre cs1 cs2 n v w :
  components o1 = pre ++ cs1 → components o2 = pre ++ cs2 → cs1 ≠ cs2 →
  set_at o2 (curLen_from 0 pre) (set_at o1 (curLen_from 0 pre) n cs1 v) cs2 w =
  set_at o1 (curLen_from 0 pre) (set_at o2 (curLen_from 0 pre) n cs2 w) cs1 v.
Proof.
  revert cs2 n pre. induction cs1 as [|c1 cs1 IH]; intros cs2 n pre H1 H2 Hne.
  - destruct cs2 as [|c2 cs2]; [done |]. reflexivity.
  - destruct cs2 as [|c2 cs2]; [reflexivity |].
    cbn [set_at name path value children].
    destruct (decide (c1 = c2)) as [->|Hc].
    + rewrite !lookup_insert_eq, !insert_insert_eq.
      rewrite (fresh_path_eq o1 o2 pre c2 cs1 cs2) by done.
      assert (advance (curLen_from 0 pre) c2 = curLen_from 0 (pre ++ [c2])) as ->
        by (by rewrite curLen_from_app).
      f_equal. f_equal. apply IH.
      * by rewrite <- app_assoc.
      * by rewrite <- app_assoc.
      * congruence.
    + rewrite !lookup_insert_ne by done. f_equal. by apply insert_insert_ne.
Qed.

Lemma Set_result_comm t p v q w :
  components p ≠ components q →
  Set_result (Set_result t p v) q w = Set_result (Set_result t q w) p v.
Proof.
  intros Hne. unfold Set_result. cbn [root countHint]. f_equal.
  by apply (set_at_comm p q []).
Qed.

Lemma Assigns_from_perm ops1 ops2 :
  ops1 ≡ₚ ops2 → NoDup (components <$> ops1.*1) →
  ∀ t, Assigns_from t ops1 = Assigns_from t ops2.
Proof.
  induction 1 as [|[p v] l1 l2 Hp IH|[p v] [q w] l|l1 l2 l3 H12 IH12 H23 IH23];
    intros Hnd t.
  - done.
  - rewrite !Assigns_from_cons. apply IH.
    rewrite !fmap_cons in Hnd. by apply NoDup_cons in Hnd as [_ ?].
  - rewrite !Assigns_from_cons. rewrite Set_result_comm; [done |].
    rewrite !fmap_cons in Hnd. cbn [fst] in Hnd.
    apply NoDup_cons in Hnd as [Hin _].
    intros E. apply Hin. first [rewrite E | rewrite <- E]. apply list_elem_of_here.
  - rewrite IH12 by done. apply IH23. by rewrite <- H12.
Qed.

(** X7. The tree does not depend on the order of assignments to different
    nodes: sequences of [Set] that are permutations of one another, with no
    two paths of the same components, build the same tree. *)
Theorem Assigns_order_irrelevant ops1 ops2 :
  ops1 ≡ₚ ops2 → NoDup (components <$> ops1.*1) →
  Assigns ops1 = Assigns ops2.
Proof. intros Hp Hnd. rewrite !Assigns_from_zero. by apply Assigns_from_perm. Qed.

End more_set.

(** * What [ListByPath] returns for a built tree *)

Section more_list.

Context {T : Type}.
Variable range : gmap string (pathTreeNode T) → list (string * pathTreeNode T).
Hypothesis range_perm : ∀ m, range m ≡ₚ map_to_list m.

Implicit Types n m : pathTreeNode T.
Implicit Types t : pathTree T.
Implicit Types p q k : string.
Implicit Types cs : list string.
Implicit Types ops : list (string * T).

Lemma assigned_Some_op ops cs (v : T) :
  assigned ops !! cs = Some v → ∃ k, k ∈ ops.*1 ∧ components k = cs.
Proof.
  induction ops as [|[k w] ops IH] using rev_ind; intros Hv.
  - unfold assigned in Hv. cbn [foldl] in Hv. by rewrite lookup_empty in Hv.
  - rewrite assigned_snoc in Hv.
    destruct (decide (components k = cs)) as [<-|Hne].
    + exists k. split; [|done]. apply elem_of_keys_snoc. by right.
    + rewrite lookup_insert_ne in Hv by done.
      destruct (IH Hv) as (k' & Hk' & E). exists k'. split; [|done].
      apply elem_of_keys_snoc. by left.
Qed.

Lemma items_of_is_Some ops k : is_Some (items_of ops !! k) ↔ k ∈ ops.*1.
Proof.
  induction ops as [|[p v] ops IH] using rev_ind.
  - unfold items_of. cbn [foldl]. rewrite lookup_empty. split.
    + by intros [? ?].
    + intros H. by apply elem_of_nil in H.
  - rewrite items_of_snoc, elem_of_keys_snoc, <- IH.
    destruct (decide (p = k)) as [->|Hne].
    + rewrite lookup_insert_eq. split; [by right | by eexists].
    + rewrite lookup_insert_ne by done. split; [by left | by intros [|]].
Qed.

Lemma keys_relative_key ops k :
  keys_relative ops = true → k ∈ ops.*1 → starts_with_slash k = false.
Proof.
  unfold keys_relative. rewrite forallb_forall.
  intros H ([k' v] & -> & Hin)%list_elem_of_fmap.
  apply list_elem_of_In in Hin. specialize (H _ Hin). by apply negb_true_iff in H.
Qed.

Lemma keys_canonical_key ops k :
  keys_canonical ops = true → k ∈ ops.*1 → ends_with_slash k = false.
Proof.
  unfold keys_canonical. rewrite forallb_forall.
  intros H ([k' v] & -> & Hin)%list_elem_of_fmap.
  apply list_elem_of_In in Hin. specialize (H _ Hin). by apply negb_true_iff in H.
Qed.

(** The path of the node of an assigned path that neither begins nor ends
    with a separator is the assigned path. *)
Lemma node_path_key k :
  starts_with_slash k = false → ends_with_slash k = false →
  node_path (components k) = k.
Proof.
  intros Hs He. rewrite (node_path_components _ k) by done.
  by apply join_components.
Qed.

(** A path is at or below another when its components begin with the
    other's. *)
Lemma at_or_below_components p k :
  p ≠ EmptyString → ends_with_slash p = false → ends_with_slash k = false →
  at_or_below p k = true ↔ components p `prefix_of` components k.
Proof.
  intros Hp Hep Hek. unfold at_or_below. rewrite orb_true_iff. split.
  - intros [->%String.eqb_eq | [r Hr]%HasPrefix_true]; [done |].
    rewrite append_assoc, app_cons in Hr. subst k.
    rewrite components_app by done. by eexists.
  - intros [rest Hrest]. destruct rest as [|d rest].
    + left. apply String.eqb_eq. rewrite app_nil_r in Hrest.
      by apply components_inj.
    + right. apply HasPrefix_true.
      assert ((components p ++ [d]) `prefix_of` components k) as Hpre.
      { exists rest. by rewrite <- app_assoc. }
      apply join_prefix_components in Hpre.
      rewrite join_snoc in Hpre by (by rewrite components_nil_iff).
      rewrite join_components in Hpre by done.
      eapply is_prefix_trans; [|exact Hpre].
      exists d. by rewrite append_assoc, app_cons.
Qed.

(** The entries listed below a node of a built tree are the assignments
    whose components pass through the node. *)
Lemma listed_entries ops t cs0 n items :
  Assigns ops = Done t →
  keys_canonical ops = true → keys_relative ops = true →
  descend (root t) cs0 = Some n →
  listByPath range n ∅ = Done items →
  ∀ k v, items !! k = Some v ↔
         items_of ops !! k = Some v ∧ cs0 `prefix_of` components k.
Proof.
  intros Hb Hc Hr Hn Hrun.
  destruct (listByPath_spec range range_perm n) as (items' & Hrun' & Hsound & Hcover).
  rewrite Hrun in Hrun'. simplify_eq.
  assert (∀ k v, items' !! k = Some v →
            items_of ops !! k = Some v ∧ cs0 `prefix_of` components k) as Hfwd.
  { intros k v Hk. destruct (Hsound k v Hk) as (m & [cs1 Hm] & Hp & Hv).
    assert (descend (root t) (cs0 ++ cs1) = Some m) as Hd
      by (by rewrite descend_app, Hn).
    pose proof (built_explicit _ _ (cs0 ++ cs1) Hb) as Hx.
    unfold explicit in Hx. rewrite Hd in Hx. cbn in Hx. rewrite Hv in Hx.
    symmetry in Hx. destruct (assigned_Some_key _ _ _ Hc Hx) as [Hcs Hi].
    assert (join (cs0 ++ cs1) ∈ ops.*1) as Hin
      by (apply items_of_is_Some; eauto).
    rewrite (built_paths_ok _ _ Hb _ _ Hd) in Hp.
    rewrite <- Hcs in Hp at 1.
    rewrite node_path_key in Hp
      by eauto using keys_relative_key, keys_canonical_key.
    subst k. split; [done |]. rewrite Hcs. by eexists. }
  intros k v. split; [apply Hfwd |].
  intros [Hi [cs1 Hcs]].
  assert (k ∈ ops.*1) as Hin by (apply items_of_is_Some; eauto).
  pose proof (keys_canonical_key _ _ Hc Hin) as He.
  pose proof (keys_relative_key _ _ Hr Hin) as Hs.
  pose proof (built_explicit _ _ (components k) Hb) as Hx.
  rewrite assigned_items, Hi in Hx by done.
  destruct (explicit_Some_descend _ _ _ Hx) as (m & Hd & Hv).
  rewrite Hcs, descend_app, Hn in Hd. cbn in Hd.
  destruct (Hcover m) as [v' Hv']; [by exists cs1 | by rewrite Hv |].
  assert (path m = k) as Hp.
  { assert (descend (root t) (components k) = Some m) as Hd'
      by (by rewrite Hcs, descend_app, Hn).
    rewrite (built_paths_ok _ _ Hb _ _ Hd'). by apply node_path_key. }
  rewrite Hp in Hv'. destruct (Hfwd _ _ Hv') as [Hi' _]. congruence.
Qed.

Lemma size_list_to_set_le (l : list string) :
  (size (list_to_set l : gset string) ≤ length l)%nat.
Proof.
  induction l as [|x l IH]; [done |].
  rewrite list_to_set_cons, size_union_alt, size_singleton. cbn [length].
  assert (list_to_set l ∖ {[x]} ⊆ (list_to_set l : gset string)) as Hsub
    by (intros y Hy; by apply elem_of_difference in Hy as [? _]).
  apply subseteq_size in Hsub. lia.
Qed.

Lemma wrap_int_small z : - 2 ^ 63 ≤ z < 2 ^ 63 → wrap_int z = z.
Proof. intros H. unfold wrap_int. rewrite Z.mod_small; lia. Qed.

Lemma built_countHint ops t :
  Assigns ops = Done t → Z.of_nat (length ops) < 2 ^ 63 →
  countHint t = Z.of_nat (length ops).
Proof.
  revert ops t. apply (Assigns_ind (λ ops t, _ → _)); [done |].
  intros ops t p v _ IH. rewrite length_app. cbn [length countHint]. intros Hlt.
  rewrite IH by lia. rewrite wrap_int_small; lia.
Qed.

(** X8. While fewer than [2^63] calls of [Set] have been made [countHint]
    is their number, and no map [ListByPath] returns has more entries: the
    hint never underestimates. *)
Theorem countHint_bounds_listing ops t :
  Assigns ops = Done t → Z.of_nat (length ops) < 2 ^ 63 →
  countHint t = Z.of_nat (length ops) ∧
  ∀ p items, ListByPath range t p = Done (Some items) →
             Z.of_nat (size items) ≤ countHint t.
Proof.
  intros Hb Hlt. split; [by apply built_countHint |].
  intros p items Hl. rewrite (built_countHint _ _ Hb Hlt).
  rewrite ListByPath_start in Hl.
  destruct (descend (root t) (components p)) as [n|] eqn:Hn; [|done].
  destruct (listByPath_spec range range_perm n) as (items' & Hrun & Hsound & _).
  rewrite Hrun in Hl. cbn in Hl. simplify_eq.
  apply inj_le.
  rewrite <- (length_fmap (λ kv : string * T, node_path (components kv.1)) ops).
  etrans; [|apply size_list_to_set_le].
  rewrite <- (size_dom (D:=gset string)). apply subseteq_size.
  intros k [v Hk]%elem_of_dom.
  destruct (Hsound k v Hk) as (m & [cs1 Hm] & Hp & Hv).
  assert (descend (root t) (components p ++ cs1) = Some m) as Hd
    by (by rewrite descend_app, Hn).
  pose proof (built_explicit _ _ (components p ++ cs1) Hb) as Hx.
  unfold explicit in Hx. rewrite Hd in Hx. cbn in Hx. rewrite Hv in Hx.
  symmetry in Hx. destruct (assigned_Some_op _ _ _ Hx) as (k' & Hk' & E).
  apply elem_of_list_to_set, list_elem_of_fmap.
  apply list_elem_of_fmap in Hk' as ([k'' w] & -> & Hin).
  exists (k'', w). split; [|done]. cbn [fst] in *.
  by rewrite E, <- (built_paths_ok _ _ Hb _ _ Hd).
Qed.

(** X9. Where no assigned path begins or ends with a separator,
    [ListByPath] of the empty path returns the assigned paths, each with
    the value last assigned to it. *)
Theorem ListByPath_all ops t :
  Assigns ops = Done t →
  keys_canonical ops = true → keys_relative ops = true →
  ListByPath range t EmptyString = Done (Some (items_of ops)).
Proof.
  intros Hb Hc Hr. rewrite ListByPath_start.
  cbn [components components_loop String.length descend].
  destruct (listByPath_spec range range_perm (root t)) as (items & Hrun & _).
  rewrite Hrun. cbn. do 2 f_equal. apply map_eq. intros k. apply option_eq. intros v.
  rewrite (listed_entries ops t [] (root t) items) by done.
  split; [by intros [? _] | intros ?; split; [done | apply prefix_nil]].
Qed.

(** X10. Where no assigned path begins or ends with a separator and [p] is
    not empty and does not end with one, [ListByPath] of [p] returns [nil]
    if no assigned path is [p] or begins with [p/], and otherwise the
    assigned paths that do, each with the value last assigned to it. *)
Theorem ListByPath_at_or_below ops t p :
  Assigns ops = Done t →
  keys_canonical ops = true → keys_relative ops = true →
  p ≠ EmptyString → ends_with_slash p = false →
  ((∀ k, k ∈ ops.*1 → at_or_below p k = false) →
   ListByPath range t p = Done None) ∧
  ((∃ k, k ∈ ops.*1 ∧ at_or_below p k = true) →
   ListByPath range t p =
   Done (Some (filter (λ kv, at_or_below p kv.1 = true) (items_of ops)))).
Proof.
  intros Hb Hc Hr Hp He. rewrite ListByPath_start.
  assert (components p ≠ []) as Hne by (by rewrite components_nil_iff).
  pose proof (built_descend_is_Some ops t (components p) Hb) as Hex.
  split.
  - intros Hnone. destruct (descend (root t) (components p)) as [n|]; [|done].
    destruct (proj1 Hex) as [?|(k & Hk & Hpre)]; [by eexists | done |].
    apply at_or_below_components in Hpre; eauto using keys_canonical_key.
    by rewrite Hnone in Hpre.
  - intros (k & Hk & Hb').
    apply at_or_below_components in Hb'; eauto using keys_canonical_key.
    destruct (proj2 Hex) as [n Hn]; [right; eauto |]. rewrite Hn.
    destruct (listByPath_spec range range_perm n) as (items & Hrun & _).
    rewrite Hrun. cbn. do 2 f_equal. apply map_eq. intros k'. apply option_eq. intros v.
    rewrite (listed_entries ops t (components p) n items) by done.
    rewrite map_lookup_filter_Some. cbn [fst].
    split; intros [Hi Hpre]; (split; [done |]);
      assert (k' ∈ ops.*1) as Hin by (apply items_of_is_Some; eauto);
      apply at_or_below_components; eauto using keys_canonical_key.
Qed.

End more_list.

(** * Full paths

    The full path of a node is the names of the components that lead to it
    from the root, joined by separators. In a tree built from paths that do
    not begin with a separator the [path] field of every node is its full
    path, and no two nodes have the same one. *)

Section full_path_facts.

Context {T : Type}.
Variable zero : T.

Implicit Types n m : pathTreeNode T.
Implicit Types t : pathTree T.
Implicit Types p q k : string.
Implicit Types cs : list string.
Implicit Types ops : list (string * T).

Lemma has_slash_app_slash h r : has_slash (h +:+ String slash r) = true.
Proof.
  induction h as [|c h IH]; [by rewrite app_nil_l |].
  rewrite app_cons. simpl. by destruct (Ascii.eqb c slash).
Qed.

Lemma components_no_slash p :
  Forall (λ c, has_slash c = false) (components p).
Proof.
  induction p as [|p Hp IH] using path_ind.
  - rewrite components_empty. constructor.
  - rewrite (components_cons p) by done. constructor; [|done].
    apply split_first_head_no_slash.
Qed.

Lemma split_slash_no_slash c : has_slash c = false → split_slash c = [c].
Proof.
  intros H. by rewrite split_slash_first, H, (split_first_no_slash c H).
Qed.

(** [strings.Split] undoes [strings.Join] on components without a
    separator. *)
Lemma split_slash_join cs :
  cs ≠ [] → Forall (λ c, has_slash c = false) cs →
  split_slash (join cs) = cs.
Proof.
  induction cs as [|c cs IH]; [done |]. intros _ Hf.
  apply Forall_cons in Hf as [Hc Hf].
  destruct cs as [|d cs]; [by apply split_slash_no_slash |].
  rewrite (join_cons c (d :: cs)) by done.
  rewrite split_slash_first, has_slash_app_slash, split_first_app by done.
  cbn [fst snd]. by rewrite IH.
Qed.

Lemma join_nonempty c cs : c ≠ EmptyString → join (c :: cs) ≠ EmptyString.
Proof.
  intros Hc. destruct cs as [|d cs]; [done |].
  rewrite (join_cons c (d :: cs)) by done.
  destruct c; [done |]. by rewrite app_cons.
Qed.

(** Two lists of components without separators, neither beginning with an
    empty component, that join to the same string are the same list. *)
Lemma join_inj cs1 cs2 :
  Forall (λ c, has_slash c = false) cs1 →
  Forall (λ c, has_slash c = false) cs2 →
  (∀ c cs, cs1 = c :: cs → c ≠ EmptyString) →
  (∀ c cs, cs2 = c :: cs → c ≠ EmptyString) →
  join cs1 = join cs2 → cs1 = cs2.
Proof.
  intros H1 H2 N1 N2 E.
  destruct cs1 as [|c1 cs1], cs2 as [|c2 cs2]; [done | | |].
  - symmetry in E. by destruct (join_nonempty c2 cs2 (N2 _ _ eq_refl)).
  - by destruct (join_nonempty c1 cs1 (N1 _ _ eq_refl)).
  - rewrite <- (split_slash_join (c1 :: cs1)), <- (split_slash_join (c2 :: cs2))
      by done.
    by rewrite E.
Qed.

(** Where the nodes are in a tree built from paths that do not begin with
    a separator, and what their [path] field is. *)
Lemma built_node_position ops t cs m :
  Assigns ops = Done t → keys_relative ops = true →
  descend (root t) cs = Some m →
  path m = join cs ∧
  Forall (λ c, has_slash c = false) cs ∧
  (∀ c cs', cs = c :: cs' → c ≠ EmptyString).
Proof.
  intros Hb Hr Hd.
  rewrite (built_paths_ok _ _ Hb _ _ Hd).
  destruct (proj1 (built_descend_is_Some _ _ cs Hb)) as [->|(k & Hk & Hp)];
    [by eexists | by repeat split |].
  pose proof (keys_relative_key _ _ Hr Hk) as Hs.
  split; [by eapply node_path_components |]. split.
  - destruct Hp as [r Hp]. pose proof (components_no_slash k) as Hf.
    rewrite Hp in Hf. by apply Forall_app in Hf as [? _].
  - intros c cs' -> . destruct Hp as [r Hp].
    assert (k ≠ EmptyString) as Hne by (by intros ->).
    rewrite (components_cons k) in Hp by done. simplify_eq/=.
    by apply split_first_head_nonempty.
Qed.

Lemma recorded_cons n (l : list (pathTreeNode T)) :
  recorded (n :: l) =
  match value n with Some v => [(path n, v)] | None => [] end ++ recorded l.
Proof. unfold recorded, report. cbn. by destruct (value n). Qed.

(** The matches of the walk with full paths are the ones [lookup] retains
    where the [path] fields along the walk are full paths. *)
Lemma walk_matches_recorded n pre cs :
  (∀ cs' m, cs' `prefix_of` cs → descend n cs' = Some m →
            path m = join (pre ++ cs')) →
  walk_matches n pre cs = recorded (visited n cs).
Proof.
  revert n pre. induction cs as [|c cs IH]; intros n pre Hp.
  - pose proof (Hp [] n ltac:(done) eq_refl) as E. rewrite app_nil_r in E.
    cbn [walk_matches visited]. by rewrite recorded_cons, E.
  - pose proof (Hp [] n ltac:(by eexists) eq_refl) as E.
    rewrite app_nil_r in E.
    cbn [walk_matches visited]. rewrite recorded_cons, E. f_equal.
    destruct (children n !! c) as [ch|] eqn:Ec; [|done].
    apply IH. intros cs' m Hk Hd. rewrite <- app_assoc. apply Hp.
    + by apply prefix_cons.
    + cbn. by rewrite Ec.
Qed.

End full_path_facts.

Section full_paths.

Context {T : Type}.
Variable zero : T.
Variable range : gmap string (pathTreeNode T) → list (string * pathTreeNode T).
Hypothesis range_perm : ∀ m, range m ≡ₚ map_to_list m.

Implicit Types n m : pathTreeNode T.
Implicit Types t : pathTree T.
Implicit Types p q k : string.
Implicit Types cs : list string.
Implicit Types ops : list (string * T).

(** In a tree built from paths that do not begin with a separator, the
    entries of the enumeration from the node at [cs0] are the full paths and
    the values of the nodes of the subtree that carry a value. *)
Lemma listed_full_paths ops t cs0 n items :
  Assigns ops = Done t → keys_relative ops = true →
  descend (root t) cs0 = Some n →
  listByPath range n ∅ = Done items →
  ∀ k v, items !! k = Some v ↔
         ∃ cs m, descend n cs = Some m ∧ value m = Some v ∧
                 path m = k ∧ k = join (cs0 ++ cs).
Proof.
  intros Hb Hr Hn Hrun.
  destruct (listByPath_spec range range_perm n)
    as (items' & Hrun' & Hsound & Hcover).
  rewrite Hrun in Hrun'. simplify_eq.
  assert (∀ cs m, descend n cs = Some m →
            path m = join (cs0 ++ cs) ∧
            Forall (λ c, has_slash c = false) (cs0 ++ cs) ∧
            (∀ c cs', cs0 ++ cs = c :: cs' → c ≠ EmptyString)) as Hpos.
  { intros cs m Hd. eapply built_node_position; [done.. |].
    by rewrite descend_app, Hn. }
  intros k v. split.
  - intros Hk. destruct (Hsound k v Hk) as (m & [cs Hm] & Hp & Hv).
    exists cs, m. destruct (Hpos _ _ Hm) as (E & _). by rewrite <- Hp.
  - intros (cs & m & Hm & Hv & Hp & _).
    destruct (Hcover m) as [v' Hv']; [by exists cs | by rewrite Hv |].
    destruct (Hsound _ _ Hv') as (m' & [cs' Hm'] & Hp' & Hv'').
    destruct (Hpos _ _ Hm) as (E & F & N).
    destruct (Hpos _ _ Hm') as (E' & F' & N').
    assert (cs0 ++ cs' = cs0 ++ cs) as Heq
      by (apply join_inj; [done.. |]; by rewrite <- E, <- E').
    apply app_inv_head in Heq. subst cs'.
    rewrite <- Hp, Hv'. congruence.
Qed.


(** X17. In a tree built by a sequence of [Set], for a path that does not
    begin with a separator, [Lookup] returns what the walk of the
    specification returns: the deepest node on the walk that carries a
    value, with its full path and its value, or not found. *)
Theorem Lookup_full_path_walk ops t p :
  Assigns ops = Done t →
  starts_with_slash p = false →
  Lookup zero t p = Done (Lookup_walk zero t p).
Proof.
  intros Hb Hs. rewrite Lookup_best, <- last_recorded. unfold Lookup_walk.
  rewrite walk_matches_recorded; [done |].
  intros cs' m Hk Hd. rewrite (built_paths_ok _ _ Hb _ _ Hd).
  by eapply node_path_components.
Qed.

End full_paths.

Section orders.

Context {T : Type}.
Variable zero : T.
Variables range1 range2 :
  gmap string (pathTreeNode T) → list (string * pathTreeNode T).
Hypothesis range1_perm : ∀ m, range1 m ≡ₚ map_to_list m.
Hypothesis range2_perm : ∀ m, range2 m ≡ₚ map_to_list m.

Implicit Types t : pathTree T.
Implicit Types p : string.
Implicit Types ops : list (string * T).

(** In a tree built from paths that do not begin with a separator, the
    result of [ListByPath] does not depend on the order in which the
    children are iterated. *)
Lemma ListByPath_order_irrelevant ops t p :
  Assigns ops = Done t → keys_relative ops = true →
  ListByPath range1 t p = ListByPath range2 t p.
Proof.
  intros Hb Hr. rewrite !ListByPath_start.
  destruct (descend (root t) (components p)) as [n|] eqn:Hn; [|done].
  destruct (listByPath_spec range1 range1_perm n) as (items1 & Hrun1 & _).
  destruct (listByPath_spec range2 range2_perm n) as (items2 & Hrun2 & _).
  rewrite Hrun1, Hrun2. cbn. do 2 f_equal. apply map_eq. intros k.
  pose proof (listed_full_paths range1 range1_perm _ _ _ _ _ Hb Hr Hn Hrun1 k)
    as H1.
  pose proof (listed_full_paths range2 range2_perm _ _ _ _ _ Hb Hr Hn Hrun2 k)
    as H2.
  destruct (items1 !! k) as [v|] eqn:E1.
  - symmetry. apply H2, H1. done.
  - destruct (items2 !! k) as [v|] eqn:E2; [|done].
    assert (None = Some v) as E by (by apply H1, H2). done.
Qed.

(** X18. For a non-empty path [p] that does not end with a separator, [p]
    and [p/] are one path: on every tree [Set] returns the same tree, and
    [Lookup] the same; in a tree built from paths that do not begin with a
    separator, [ListByPath] returns the same map, whatever the orders in
    which the two calls iterate the children; the splitter leaves an empty
    rest after a last component that a separator follows. *)
Theorem trailing_separator_ignored t p v :
  p ≠ EmptyString → ends_with_slash p = false →
  Set_ t (p +:+ "/") v = Set_ t p v ∧
  Lookup zero t (p +:+ "/") = Lookup zero t p ∧
  (∀ ops, Assigns ops = Done t → keys_relative ops = true →
          ListByPath range1 t (p +:+ "/") = ListByPath range2 t p) ∧
  (∀ h, has_slash h = false →
        pathTakeFirst (h +:+ "/") = Done (h, EmptyString)).
Proof.
  intros Hp He. split; [by apply Set_trailing_slash |]. split; [|split].
  - by rewrite !Lookup_best, components_trailing_slash.
  - intros ops Hb Hr.
    rewrite (ListByPath_order_irrelevant ops t (p +:+ "/") Hb Hr).
    by rewrite !ListByPath_start, components_trailing_slash.
  - intros h Hh. by rewrite pathTakeFirst_Done, split_first_app.
Qed.

End orders.

(** * The handler *)

Section handler_facts.

Variable range :
  gmap string (pathTreeNode Package.t) → list (string * pathTreeNode Package.t).
Hypothesis range_perm : ∀ m, range m ≡ₚ map_to_list m.
Variable indexTemplate : IndexData → option string.
Variable packageTemplate : PackageData → option string.

Implicit Types cfg : Config.t.
Implicit Types h : sallyHandler.
Implicit Types r : Request.
Implicit Types p q k name : string.
Implicit Types ops : list (string * Package.t).
Implicit Types pkgs : gmap string Package.t.

Lemma TrimPrefix_app a b : TrimPrefix (a +:+ b) a = b.
Proof.
  unfold TrimPrefix.
  assert (HasPrefix (a +:+ b) a = true) as -> by (apply HasPrefix_true; by exists b).
  apply drop_app_length.
Qed.

Lemma TrimPrefix_not s pre : HasPrefix s pre = false → TrimPrefix s pre = s.
Proof. unfold TrimPrefix. by intros ->. Qed.

Lemma ListByPath_built_entries ops t p :
  Assigns ops = Done t →
  keys_canonical ops = true → keys_relative ops = true →
  ends_with_slash p = false →
  ∃ listed, ListByPath range t p = Done listed ∧
    map_entries listed =
    filter (λ kv, listed_under p kv.1 = true) (items_of ops).
Proof.
  intros Hb Hc Hr He. rewrite ListByPath_start.
  destruct (descend (root t) (components p)) as [n|] eqn:Hn.
  - destruct (listByPath_spec range range_perm n) as (items & Hrun & _).
    rewrite Hrun. cbn. eexists; split; [done |]. cbn.
    apply map_eq. intros k. apply option_eq. intros v.
    rewrite (listed_entries range range_perm ops t (components p) n items) by done.
    rewrite map_lookup_filter_Some. cbn [fst]. unfold listed_under.
    destruct (String.eqb_spec p EmptyString) as [->|Hp]; cbn [orb].
    + split; intros [Hi _]; (split; [done |]); [done | apply prefix_nil].
    + split; intros [Hi Hpre]; (split; [done |]);
        assert (k ∈ ops.*1) as Hin by (apply items_of_is_Some; eauto);
        apply at_or_below_components; eauto using keys_canonical_key.
  - eexists; split; [done |]. cbn. symmetry. apply map_empty. intros k.
    apply eq_None_not_Some. intros [v Hv].
    apply map_lookup_filter_Some in Hv as [Hi Hl]. cbn [fst] in Hl.
    assert (k ∈ ops.*1) as Hin by (apply items_of_is_Some; eauto).
    unfold listed_under in Hl.
    destruct (String.eqb_spec p EmptyString) as [->|Hp]; [done |]. cbn [orb] in Hl.
    apply at_or_below_components in Hl; eauto using keys_canonical_key.
    destruct (proj2 (built_descend_is_Some ops t (components p) Hb)) as [? ?];
      [right; eauto | congruence].
Qed.

(** The assignments [CreateHandler] makes. *)

Lemma perm_keys_NoDup pkgs ops :
  ops ≡ₚ map_to_list pkgs → NoDup ops.*1.
Proof. intros ->. apply NoDup_fst_map_to_list. Qed.

Lemma items_of_NoDup ops k (v : Package.t) :
  NoDup ops.*1 → items_of ops !! k = Some v ↔ (k, v) ∈ ops.
Proof.
  induction ops as [|[p w] ops IH] using rev_ind; intros Hnd.
  - unfold items_of. cbn [foldl]. rewrite lookup_empty. split; [done |].
    intros H. by apply elem_of_nil in H.
  - rewrite fmap_app in Hnd. apply NoDup_app in Hnd as (Hnd & Hdisj & _).
    rewrite items_of_snoc, elem_of_app, list_elem_of_singleton.
    destruct (decide (p = k)) as [->|Hne].
    + rewrite lookup_insert_eq. split.
      * intros [= ->]. by right.
      * intros [Hin|[= ->]]; [|done]. exfalso.
        apply (Hdisj k); [|cbn; apply list_elem_of_here].
        apply list_elem_of_fmap. by exists (k, v).
    + rewrite lookup_insert_ne by done. rewrite IH by done.
      split; [by left | intros [?|[= ? ?]]; [done | congruence]].
Qed.

Lemma items_of_perm pkgs ops : ops ≡ₚ map_to_list pkgs → items_of ops = pkgs.
Proof.
  intros Hp. apply map_eq. intros k. apply option_eq. intros v.
  rewrite items_of_NoDup by (by eapply perm_keys_NoDup).
  by rewrite Hp, elem_of_map_to_list.
Qed.

Lemma keys_canonical_perm pkgs ops :
  ops ≡ₚ map_to_list pkgs → names_canonical pkgs = true →
  keys_canonical ops = true.
Proof.
  unfold names_canonical, keys_canonical. rewrite !forallb_forall.
  intros Hp H x Hx. apply H. apply list_elem_of_In. rewrite <- Hp.
  by apply list_elem_of_In.
Qed.

Lemma keys_relative_perm pkgs ops :
  ops ≡ₚ map_to_list pkgs → names_relative pkgs = true →
  keys_relative ops = true.
Proof.
  unfold names_relative, keys_relative. rewrite !forallb_forall.
  intros Hp H x Hx. apply H. apply list_elem_of_In. rewrite <- Hp.
  by apply list_elem_of_In.
Qed.

Lemma components_NoDup ops :
  NoDup ops.*1 → keys_canonical ops = true →
  NoDup (components <$> ops.*1).
Proof.
  intros Hnd Hc. apply NoDup_fmap_2_strong; [|done].
  intros k1 k2 H1 H2 E.
  apply components_inj; [| |done]; by eapply keys_canonical_key.
Qed.

Lemma CreateHandler_Assigns rangePackages cfg :
  CreateHandler rangePackages cfg =
  Assigns (rangePackages (Config.Packages cfg)) ≫= λ t, Done (mkHandler cfg t).
Proof. done. Qed.

(** X11. Where no package name ends with a separator, [CreateHandler]
    returns the same handler in whatever order it ranges over the packages
    of the configuration, and the handler's tree finds every package whose
    name does not begin with a separator under its own name. *)
Theorem CreateHandler_order_irrelevant
    (range1 range2 : gmap string Package.t → list (string * Package.t)) cfg :
  (∀ m, range1 m ≡ₚ map_to_list m) →
  (∀ m, range2 m ≡ₚ map_to_list m) →
  names_canonical (Config.Packages cfg) = true →
  ∃ h, CreateHandler range1 cfg = Done h ∧
       CreateHandler range2 cfg = Done h ∧
       config h = cfg ∧
       ∀ name pkg, Config.Packages cfg !! name = Some pkg →
                   starts_with_slash name = false →
                   Lookup Package.zero (packages h) name = Done (name, pkg, true).
Proof.
  intros H1 H2 Hc. rewrite !CreateHandler_Assigns.
  pose proof (H1 (Config.Packages cfg)) as Hp1.
  pose proof (H2 (Config.Packages cfg)) as Hp2.
  pose proof (keys_canonical_perm _ _ Hp1 Hc) as Hk1.
  assert (Assigns (range1 (Config.Packages cfg)) =
          Assigns (range2 (Config.Packages cfg))) as E.
  { rewrite !Assigns_from_zero. apply Assigns_from_perm; [by rewrite Hp1, Hp2 |].
    apply components_NoDup; [by eapply perm_keys_NoDup | done]. }
  rewrite <- E. destruct (Assigns_Done (range1 (Config.Packages cfg))) as [t Ht].
  rewrite Ht. cbn. eexists; split; [done |]. split; [done |]. split; [done |].
  intros name pkg Hn Hs. cbn [packages].
  apply (Lookup_exact_key Package.zero (range1 (Config.Packages cfg))); try done.
  by rewrite (items_of_perm _ _ Hp1).
Qed.

(** X12. For a handler made by [CreateHandler], when [Lookup] finds a
    package for the path of the request, [ServeHTTP] executes the package
    template, and reports its error if it has one, on the repository and
    branch of the package and the canonical URL made of the base URL, the
    package's own if it has one, and the matched name; and when the path of
    the request begins with a separator the godoc URL is the host, the base
    URL and the whole path of the request. *)
Theorem ServeHTTP_package rangePackages cfg h r pkgName pkg :
  CreateHandler rangePackages cfg = Done h →
  Lookup Package.zero (packages h) (TrimPrefix (URLPath r) "/")
    = Done (pkgName, pkg, true) →
  let baseURL :=
    if String.eqb (Package.URL pkg) EmptyString then Config.URL cfg
    else Package.URL pkg in
  ∃ data,
    ServeHTTP range indexTemplate packageTemplate h r =
    Done (ExecutePackage data ::
          match packageTemplate data with
          | Some err => [HttpError err 500]
          | None => []
          end) ∧
    data_Repo data = Package.Repo pkg ∧
    data_Branch data = Package.Branch pkg ∧
    data_CanonicalURL data = baseURL +:+ "/" +:+ pkgName ∧
    (HasPrefix (URLPath r) "/" = true →
     data_GodocURL data =
     "https://" +:+ GodocConfig.Host (Config.Godoc cfg) +:+ "/"
       +:+ baseURL +:+ URLPath r).
Proof.
  intros Hh Hl baseURL. rewrite CreateHandler_Assigns in Hh.
  destruct (Assigns _) as [t| |] eqn:Hb; cbn in Hh; [|done..].
  injection Hh as <-. cbn [packages config] in *.
  unfold ServeHTTP. cbn [packages config]. rewrite Hl. cbn.
  assert ((if negb (String.eqb (Package.URL pkg) EmptyString)
           then Package.URL pkg else Config.URL cfg) = baseURL) as ->.
  { unfold baseURL. by destruct (String.eqb _ _). }
  match goal with |- context [packageTemplate ?d] => exists d end.
  split; [by destruct (packageTemplate _) |].
  cbn. repeat split.
  intros [rest Hrest]%HasPrefix_true.
  rewrite Hrest, TrimPrefix_app in Hl.
  destruct (Lookup_prefix_built Package.zero _ _ _ _ _ Hb Hl) as [rel Hrel].
  rewrite Hrest at 1. rewrite Hrel.
  replace ("/" +:+ pkgName +:+ rel) with (("/" +:+ pkgName) +:+ rel)
    by (by rewrite append_assoc).
  rewrite TrimPrefix_app.
  rewrite Hrest, Hrel. by rewrite !append_assoc.
Qed.

(** X13. For a handler made by [CreateHandler] from packages whose names
    neither begin nor end with a separator, and a request for [/p] where
    [Lookup] finds no package for [p]: the packages concerned are the
    configured ones at or below [p], all of them for the empty [p]; if
    there is none and the method is not [GET], [ServeHTTP] calls
    [http.NotFound] and nothing else; otherwise it executes the index
    template, and reports its error if it has one, on these packages, the
    URL and the godoc host of the configuration. *)
Theorem ServeHTTP_index rangePackages cfg h r p q v :
  (∀ m, rangePackages m ≡ₚ map_to_list m) →
  names_canonical (Config.Packages cfg) = true →
  names_relative (Config.Packages cfg) = true →
  CreateHandler rangePackages cfg = Done h →
  URLPath r = "/" +:+ p → ends_with_slash p = false →
  Lookup Package.zero (packages h) p = Done (q, v, false) →
  ∃ listed,
    map_entries listed =
      filter (λ np, listed_under p np.1 = true) (Config.Packages cfg) ∧
    ServeHTTP range indexTemplate packageTemplate h r =
    Done (if (map_len listed =? 0) && negb (String.eqb (Method r) MethodGet)
          then [NotFound]
          else
            let data :=
              mkIndexData (Config.URL cfg) listed
                (GodocConfig.Host (Config.Godoc cfg)) in
            ExecuteIndex data ::
            match indexTemplate data with
            | Some err => [HttpError err 500]
            | None => []
            end).
Proof.
  intros Hperm Hc Hr Hh Hu He Hl. rewrite CreateHandler_Assigns in Hh.
  destruct (Assigns _) as [t| |] eqn:Hb; cbn in Hh; [|done..].
  injection Hh as <-. cbn [packages config] in *.
  pose proof (Hperm (Config.Packages cfg)) as Hp.
  destruct (ListByPath_built_entries _ t p Hb
              (keys_canonical_perm _ _ Hp Hc) (keys_relative_perm _ _ Hp Hr) He)
    as (listed & Hrun & Hent).
  rewrite (items_of_perm _ _ Hp) in Hent.
  exists listed. split; [done |].
  unfold ServeHTTP. cbn [packages config]. rewrite Hu, TrimPrefix_app, Hl. cbn.
  rewrite Hrun. cbn.
  destruct ((map_len listed =? 0) && negb (String.eqb (Method r) MethodGet));
    [done |].
  by destruct (indexTemplate _).
Qed.

End handler_facts.

(** * The configuration *)

Section parse_facts.

Variable ReadFile : string → string + string.
Variable Unmarshal : string → Config.t + string.
Variable rangePackages : gmap string Package.t → list (string * Package.t).
Hypothesis rangePackages_perm : ∀ m, rangePackages m ≡ₚ map_to_list m.

Implicit Types p : Package.t.
Implicit Types k name : string.
Implicit Types acc pkgs : gmap string Package.t.

Lemma branch_step_lookup acc k0 p0 k :
  acc !! k0 = Some p0 →
  (if String.eqb (Package.Branch p0) EmptyString then
     <[k0 := Package.mk (Package.Repo p0) _defaultBranch
               (Package.URL p0) (Package.Desc p0)]> acc
   else acc) !! k =
  if decide (k = k0) then Some (with_default_branch p0) else acc !! k.
Proof.
  intros H0. unfold with_default_branch.
  destruct (String.eqb (Package.Branch p0) EmptyString).
  - destruct (decide (k = k0)) as [->|Hne];
      [by rewrite lookup_insert_eq | by rewrite lookup_insert_ne].
  - destruct (decide (k = k0)) as [->|Hne]; done.
Qed.

Lemma fold_branches (l : list (string * Package.t)) acc k :
  NoDup l.*1 → (∀ k' p', (k', p') ∈ l → acc !! k' = Some p') →
  foldl (λ acc vp,
           let p := vp.2 in
           if String.eqb (Package.Branch p) EmptyString then
             <[vp.1 := Package.mk (Package.Repo p) _defaultBranch
                         (Package.URL p) (Package.Desc p)]> acc
           else acc) acc l !! k =
  if decide (k ∈ l.*1) then with_default_branch <$> acc !! k else acc !! k.
Proof.
  revert acc. induction l as [|[k0 p0] l IH]; intros acc Hnd Hacc.
  - cbn. by rewrite decide_False by apply not_elem_of_nil.
  - rewrite fmap_cons in Hnd. cbn [fst] in Hnd.
    apply NoDup_cons in Hnd as [Hnin Hnd].
    assert (acc !! k0 = Some p0) as H0 by (apply Hacc, list_elem_of_here).
    cbn [foldl fst snd]. rewrite IH; [|done|].
    2:{ intros k' p' Hin. rewrite branch_step_lookup by done.
        rewrite decide_False; [apply Hacc; by apply list_elem_of_further |].
        intros ->. apply Hnin, list_elem_of_fmap. by exists (k0, p'). }
    rewrite branch_step_lookup by done. rewrite fmap_cons. cbn [fst].
    destruct (decide (k = k0)) as [->|Hne].
    + rewrite decide_False by done.
      rewrite decide_True by apply list_elem_of_here. by rewrite H0.
    + destruct (decide (k ∈ l.*1)) as [Hin|Hin].
      * by rewrite decide_True by (by apply list_elem_of_further).
      * rewrite decide_False; [done |].
        by intros [?|?]%elem_of_cons.
Qed.

Lemma parse_branches_fmap pkgs :
  parse_branches rangePackages pkgs = with_default_branch <$> pkgs.
Proof.
  pose proof (rangePackages_perm pkgs) as Hp.
  apply map_eq. intros k. unfold parse_branches. rewrite fold_branches.
  - rewrite lookup_fmap. destruct (decide _) as [_|Hn]; [done |].
    destruct (pkgs !! k) as [p|] eqn:E; [|done]. exfalso. apply Hn.
    apply list_elem_of_fmap. exists (k, p). split; [done |].
    rewrite Hp. by apply elem_of_map_to_list.
  - rewrite Hp. apply NoDup_fst_map_to_list.
  - intros k' p' Hin. rewrite Hp in Hin. by apply elem_of_map_to_list.
Qed.

Lemma with_default_branch_nonempty p :
  Package.Branch (with_default_branch p) ≠ EmptyString.
Proof.
  unfold with_default_branch.
  destruct (String.eqb_spec (Package.Branch p) EmptyString); [done | done].
Qed.

(** X14. When the file is read and decoded, [Parse] returns no error and
    the decoded configuration with the same URL and the same packages,
    each with the default branch where it had none and otherwise as it
    was, so that every package has a branch, whatever the order of the
    loop over the packages; and the default host where none was given. *)
Theorem Parse_default_branches path0 data c0 :
  ReadFile path0 = inl data → Unmarshal data = inl c0 →
  ∃ c, Parse ReadFile Unmarshal rangePackages path0 = (Some c, None) ∧
    Config.URL c = Config.URL c0 ∧
    Config.Packages c = with_default_branch <$> Config.Packages c0 ∧
    (∀ name p, Config.Packages c !! name = Some p →
               Package.Branch p ≠ EmptyString) ∧
    (∀ name, is_Some (Config.Packages c !! name) ↔
             is_Some (Config.Packages c0 !! name)) ∧
    (GodocConfig.Host (Config.Godoc c0) = EmptyString →
     GodocConfig.Host (Config.Godoc c) = _defaultGodocServer).
Proof.
  intros Hr Hu. unfold Parse. rewrite Hr, Hu. eexists. split; [done |].
  cbn [Config.URL Config.Packages Config.Godoc GodocConfig.Host].
  rewrite parse_branches_fmap. split; [done |]. split; [done |].
  split; [|split].
  - intros name p. rewrite lookup_fmap.
    destruct (Config.Packages c0 !! name) as [p0|]; [|done].
    intros [= <-]. apply with_default_branch_nonempty.
  - intros name. rewrite lookup_fmap. by rewrite fmap_is_Some.
  - intros ->. reflexivity.
Qed.

Lemma HasSuffix_slash s : HasSuffix s "/" = ends_with_slash s.
Proof.
  unfold HasSuffix. induction s as [|c s IH]; [done |].
  destruct s as [|d s].
  - change (Ascii.eqb c slash && true = Ascii.eqb c slash). apply andb_true_r.
  - rewrite ends_with_slash_cons by done. rewrite <- IH.
    change (String.length "/") with 1%nat. cbn [String.length].
    replace (S (S (String.length s)) - 1)%nat with (S (String.length s)) by lia.
    replace (S (String.length s) - 1)%nat with (String.length s) by lia.
    reflexivity.
Qed.

Lemma TrimSuffix_slash_app h : TrimSuffix (h +:+ "/") "/" = h.
Proof.
  unfold TrimSuffix. rewrite HasSuffix_slash, ends_with_slash_app.
  cbn [ends_with_slash]. change (Ascii.eqb "/" slash) with true. cbv iota.
  rewrite length_append. cbn [String.length].
  replace (String.length h + 1 - 1)%nat with (String.length h) by lia.
  apply take_app_length.
Qed.

Lemma TrimSuffix_no_slash h : ends_with_slash h = false → TrimSuffix h "/" = h.
Proof. intros H. unfold TrimSuffix. by rewrite HasSuffix_slash, H. Qed.

Lemma is_prefix_snoc_slash pre h :
  is_prefix pre (h +:+ "/") → is_prefix pre h ∨ pre = h +:+ "/".
Proof.
  revert h. induction pre as [|c pre IH]; intros h [r Hr].
  - left. by exists h.
  - destruct h as [|d h].
    + rewrite app_cons in Hr. change (EmptyString +:+ "/") with "/" in *.
      injection Hr as Hc Hr. subst c.
      destruct pre; [by right | by rewrite app_cons in Hr].
    + rewrite !app_cons in Hr. injection Hr as Hc Hr. subst d.
      destruct (IH h) as [[r' Hr']|Hr']; [by exists r | |]; subst.
      * left. exists r'. by rewrite app_cons.
      * right. by rewrite app_cons.
Qed.

Lemma HasPrefix_snoc_slash pre h :
  HasPrefix h pre = false → pre ≠ h +:+ "/" →
  HasPrefix (h +:+ "/") pre = false.
Proof.
  intros Hn Hne. apply not_true_is_false. intros H%HasPrefix_true.
  destruct (is_prefix_snoc_slash _ _ H) as [Hp|Hp]; [|done].
  apply HasPrefix_true in Hp. congruence.
Qed.

End parse_facts.

Section host_facts.

Implicit Types h s : string.

Lemma append_slash_inj a b : a +:+ "/" = b +:+ "/" → a = b.
Proof.
  revert b. induction a as [|c a IH]; intros [|d b] H.
  - done.
  - rewrite app_cons in H. change (EmptyString +:+ "/") with "/" in H.
    injection H as _ H. destruct b; [done | by rewrite app_cons in H].
  - rewrite app_cons in H. change (EmptyString +:+ "/") with "/" in H.
    injection H as _ H. destruct a; [done | by rewrite app_cons in H].
  - rewrite !app_cons in H. injection H as -> H. f_equal. by apply IH.
Qed.

Lemma parse_host_nonempty s :
  s ≠ EmptyString →
  parse_host s =
  TrimSuffix (TrimPrefix (TrimPrefix s "https://") "http://") "/".
Proof. unfold parse_host. by destruct s. Qed.

Lemma no_scheme_snoc_slash h scheme :
  HasPrefix h scheme = false → ends_with_slash h = false →
  (∀ h', scheme = h' +:+ "/" → ends_with_slash h' = true) →
  HasPrefix (h +:+ "/") scheme = false.
Proof.
  intros Hn He Hs. apply HasPrefix_snoc_slash; [done |].
  intros E. rewrite (Hs h E) in He. done.
Qed.

Lemma https_snoc h' : "https://" = h' +:+ "/" → ends_with_slash h' = true.
Proof.
  intros E. change "https://" with ("https:/" +:+ "/") in E.
  by apply append_slash_inj in E as <-.
Qed.

Lemma http_snoc h' : "http://" = h' +:+ "/" → ends_with_slash h' = true.
Proof.
  intros E. change "http://" with ("http:/" +:+ "/") in E.
  by apply append_slash_inj in E as <-.
Qed.

(** X15. The host of the godoc server may be given with or without a
    scheme and with or without a separator at its end: for a host [h]
    that is not empty, begins with neither scheme and does not end with a
    separator, [Parse] settles on [h] for each of these spellings. *)
Theorem parse_host_spellings h :
  h ≠ EmptyString →
  HasPrefix h "http://" = false → HasPrefix h "https://" = false →
  ends_with_slash h = false →
  parse_host h = h ∧
  parse_host (h +:+ "/") = h ∧
  parse_host ("http://" +:+ h) = h ∧
  parse_host ("http://" +:+ h +:+ "/") = h ∧
  parse_host ("https://" +:+ h) = h ∧
  parse_host ("https://" +:+ h +:+ "/") = h.
Proof.
  intros Hne Hhttp Hhttps He.
  pose proof (no_scheme_snoc_slash h _ Hhttps He https_snoc) as Hs1.
  pose proof (no_scheme_snoc_slash h _ Hhttp He http_snoc) as Hs2.
  assert (h +:+ "/" ≠ EmptyString) as Hne' by (by destruct h).
  repeat split.
  - rewrite parse_host_nonempty by done.
    rewrite (TrimPrefix_not h "https://"), (TrimPrefix_not h "http://") by done.
    by rewrite TrimSuffix_no_slash.
  - rewrite parse_host_nonempty by done.
    rewrite (TrimPrefix_not (h +:+ "/") "https://") by done.
    rewrite (TrimPrefix_not (h +:+ "/") "http://") by done.
    by rewrite TrimSuffix_slash_app.
  - rewrite parse_host_nonempty by done.
    rewrite (TrimPrefix_not _ "https://") by reflexivity.
    by rewrite TrimPrefix_app, TrimSuffix_no_slash.
  - rewrite parse_host_nonempty by done.
    rewrite (TrimPrefix_not _ "https://") by reflexivity.
    by rewrite TrimPrefix_app, TrimSuffix_slash_app.
  - rewrite parse_host_nonempty by done.
    by rewrite TrimPrefix_app, TrimPrefix_not, TrimSuffix_no_slash.
  - rewrite parse_host_nonempty by done.
    by rewrite TrimPrefix_app, TrimPrefix_not, TrimSuffix_slash_app.
Qed.

End host_facts.

(** * The further properties at concrete trees and configurations *)

Section more_examples.

Lemma range_nodes_enum_perm (m : gmap string (pathTreeNode Package.t)) :
  range_nodes_enum m ≡ₚ map_to_list m.
Proof. reflexivity. Qed.

Lemma range_packages_enum_perm (m : gmap string Package.t) :
  range_packages_enum m ≡ₚ map_to_list m.
Proof. reflexivity. Qed.

Lemma range_packages_rev_perm (m : gmap string Package.t) :
  range_packages_rev m ≡ₚ map_to_list m.
Proof. apply reverse_Permutation. Qed.

(** X2 at [TestPathTree_simple] and ["foo/bar/baz"]. *)
Lemma Lookup_closest_ancestor_witness :
  Lookup 0 simple_tree "foo/bar/baz" =
  Done match longest_assigned (assigned simple_ops) []
               (components "foo/bar/baz") with
       | Some (cs, v) => (node_path cs, v, true)
       | None => (EmptyString, 0, false)
       end ∧
  longest_assigned (assigned simple_ops) [] (components "foo/bar/baz")
  = Some (["foo"; "bar"], 20).
Proof.
  split; [|vm_compute; reflexivity].
  apply (Lookup_closest_ancestor 0 simple_ops simple_tree "foo/bar/baz").
  vm_compute. reflexivity.
Defined.

(** X3 at [TestPathTree_simple]: ["bar"] is set and ["bar/baz/qux"]
    inherits. *)
Lemma Set_inherited_witness :
  ∃ t' matched, Set_ simple_tree "bar" 31 = Done t' ∧
     Lookup 0 t' "bar" = Done (matched, 31, true) ∧
     Lookup 0 t' "bar/baz/qux" = Done (matched, 31, true).
Proof.
  apply (Set_inherited 0 simple_tree "bar" 31 "bar/baz/qux").
  - exists ["baz"; "qux"]. vm_compute. reflexivity.
  - intros cs Hp Hlen.
    change (components "bar/baz/qux") with ["bar"; "baz"; "qux"] in Hp.
    change (components "bar") with ["bar"] in Hlen.
    destruct cs as [|a [|b cs]]; [simpl in Hlen; lia.. |].
    pose proof (prefix_cons_inv_1 _ _ _ _ Hp) as ->.
    apply prefix_cons_inv_2 in Hp.
    pose proof (prefix_cons_inv_1 _ _ _ _ Hp) as ->.
    reflexivity.
Defined.

(** X5 at [TestPathTree_simple] and the components of ["foo/bar"]. *)
Lemma built_nodes_witness :
  is_Some (descend (root simple_tree) ["foo"; "bar"]) ↔
  ["foo"; "bar"] = [] ∨
  ∃ k, k ∈ simple_ops.*1 ∧ ["foo"; "bar"] `prefix_of` components k.
Proof.
  apply (built_nodes simple_ops simple_tree ["foo"; "bar"]).
  vm_compute. reflexivity.
Defined.

(** X7 at the assignments of [TestPathTree_simple], made backwards. *)
Lemma Assigns_order_irrelevant_witness :
  Assigns simple_ops = Assigns (reverse simple_ops).
Proof.
  apply (Assigns_order_irrelevant simple_ops (reverse simple_ops)).
  - symmetry. apply reverse_Permutation.
  - apply (bool_decide_unpack _). vm_compute. reflexivity.
Defined.

(** X8 at [TestPathTree_simple]. *)
Lemma countHint_bounds_listing_witness :
  countHint simple_tree = Z.of_nat (length simple_ops) ∧
  ∀ p items, ListByPath range_enum simple_tree p = Done (Some items) →
             Z.of_nat (size items) ≤ countHint simple_tree.
Proof.
  apply (countHint_bounds_listing range_enum range_enum_perm simple_ops simple_tree).
  - vm_compute. reflexivity.
  - vm_compute. reflexivity.
Defined.

(** X9 at [TestPathTree_simple]. *)
Lemma ListByPath_all_witness :
  ListByPath range_enum simple_tree "" = Done (Some (items_of simple_ops)).
Proof.
  apply (ListByPath_all range_enum range_enum_perm simple_ops simple_tree).
  - vm_compute. reflexivity.
  - reflexivity.
  - reflexivity.
Defined.

(** X10 at [TestPathTree_simple] and the path ["foo"]. *)
Lemma ListByPath_at_or_below_witness :
  ((∀ k, k ∈ simple_ops.*1 → at_or_below "foo" k = false) →
   ListByPath range_enum simple_tree "foo" = Done None) ∧
  ((∃ k, k ∈ simple_ops.*1 ∧ at_or_below "foo" k = true) →
   ListByPath range_enum simple_tree "foo" =
   Done (Some (filter (λ kv, at_or_below "foo" kv.1 = true)
                 (items_of simple_ops)))).
Proof.
  apply (ListByPath_at_or_below range_enum range_enum_perm simple_ops simple_tree "foo").
  - vm_compute. reflexivity.
  - reflexivity.
  - reflexivity.
  - discriminate.
  - reflexivity.
Defined.

(** X11 at the example configuration, ranged over forwards and
    backwards. *)
Lemma CreateHandler_order_irrelevant_witness :
  ∃ h, CreateHandler range_packages_enum example_config = Done h ∧
       CreateHandler range_packages_rev example_config = Done h ∧
       config h = example_config ∧
       ∀ name pkg, Config.Packages example_config !! name = Some pkg →
                   starts_with_slash name = false →
                   Lookup Package.zero (packages h) name = Done (name, pkg, true).
Proof.
  apply (CreateHandler_order_irrelevant range_packages_enum range_packages_rev
           example_config).
  - apply range_packages_enum_perm.
  - apply range_packages_rev_perm.
  - vm_compute. reflexivity.
Defined.

(** X12 at the example handler and a request for ["/zap/zapcore"]. *)
Lemma ServeHTTP_package_witness :
  ∃ data,
    ServeHTTP range_nodes_enum no_error no_error example_handler
      (mkRequest "GET" "/zap/zapcore") =
    Done (ExecutePackage data ::
          match no_error data with
          | Some err => [HttpError err 500]
          | None => []
          end) ∧
    data_Repo data = "github.com/uber-go/zap" ∧
    data_Branch data = "master" ∧
    data_CanonicalURL data = "go.uber.org/zap" ∧
    (HasPrefix "/zap/zapcore" "/" = true →
     data_GodocURL data = "https://pkg.go.dev/go.uber.org/zap/zapcore").
Proof.
  apply (ServeHTTP_package range_nodes_enum no_error no_error
           range_packages_enum example_config example_handler
           (mkRequest "GET" "/zap/zapcore") "zap" zap_parsed).
  - vm_compute. reflexivity.
  - vm_compute. reflexivity.
Defined.

(** X13 at the example handler and a request for ["/net"]. *)
Lemma ServeHTTP_index_witness :
  ∃ listed,
    map_entries listed =
      filter (λ np, listed_under "net" np.1 = true)
        (Config.Packages example_config) ∧
    ServeHTTP range_nodes_enum no_error no_error example_handler
      (mkRequest "POST" "/net") =
    Done (if (map_len listed =? 0) && negb (String.eqb "POST" MethodGet)
          then [NotFound]
          else
            let data :=
              mkIndexData (Config.URL example_config) listed
                (GodocConfig.Host (Config.Godoc example_config)) in
            ExecuteIndex data ::
            match no_error data with
            | Some err => [HttpError err 500]
            | None => []
            end).
Proof.
  apply (ServeHTTP_index range_nodes_enum range_nodes_enum_perm no_error no_error
           range_packages_enum example_config example_handler
           (mkRequest "POST" "/net") "net" "" Package.zero).
  - apply range_packages_enum_perm.
  - vm_compute. reflexivity.
  - vm_compute. reflexivity.
  - vm_compute. reflexivity.
  - reflexivity.
  - reflexivity.
  - vm_compute. reflexivity.
Defined.

(** X14 at the example file. *)
Lemma Parse_default_branches_witness :
  ∃ c, Parse example_ReadFile example_Unmarshal range_packages_enum "sally.yaml"
       = (Some c, None) ∧
    Config.URL c = Config.URL example_decoded ∧
    Config.Packages c = with_default_branch <$> Config.Packages example_decoded ∧
    (∀ name p, Config.Packages c !! name = Some p →
               Package.Branch p ≠ EmptyString) ∧
    (∀ name, is_Some (Config.Packages c !! name) ↔
             is_Some (Config.Packages example_decoded !! name)) ∧
    (GodocConfig.Host (Config.Godoc example_decoded) = EmptyString →
     GodocConfig.Host (Config.Godoc c) = _defaultGodocServer).
Proof.
  apply (Parse_default_branches example_ReadFile example_Unmarshal
           range_packages_enum range_packages_enum_perm
           "sally.yaml" "url: go.uber.org" example_decoded).
  - reflexivity.
  - reflexivity.
Defined.

(** X15 at the default host. *)
Lemma parse_host_spellings_witness :
  parse_host "pkg.go.dev" = "pkg.go.dev" ∧
  parse_host ("pkg.go.dev" +:+ "/") = "pkg.go.dev" ∧
  parse_host ("http://" +:+ "pkg.go.dev") = "pkg.go.dev" ∧
  parse_host ("http://" +:+ "pkg.go.dev" +:+ "/") = "pkg.go.dev" ∧
  parse_host ("https://" +:+ "pkg.go.dev") = "pkg.go.dev" ∧
  parse_host ("https://" +:+ "pkg.go.dev" +:+ "/") = "pkg.go.dev".
Proof.
  apply (parse_host_spellings "pkg.go.dev").
  - discriminate.
  - reflexivity.
  - reflexivity.
  - reflexivity.
Defined.

End more_examples.

Section handler_total.

Variable range :
  gmap string (pathTreeNode Package.t) → list (string * pathTreeNode Package.t).
Hypothesis range_perm : ∀ m, range m ≡ₚ map_to_list m.
Variable indexTemplate : IndexData → option string.
Variable packageTemplate : PackageData → option string.

Lemma ListByPath_total (t : pathTree Package.t) p :
  ∃ listed, ListByPath range t p = Done listed.
Proof.
  rewrite ListByPath_start.
  destruct (descend (root t) (components p)) as [n|]; [|by eexists].
  destruct (listByPath_spec range range_perm n) as (items & -> & _). by eexists.
Qed.

(** X16. For every handler and every request [ServeHTTP] answers, without
    a panic: it calls [http.NotFound] alone, and only for a method other
    than [GET], or executes one template, once, which only an
    [http.Error] of status 500 with the template's error may follow. *)
Theorem ServeHTTP_answers (h : sallyHandler) (r : Request) :
  ∃ calls, ServeHTTP range indexTemplate packageTemplate h r = Done calls ∧
    ((calls = [NotFound] ∧ Method r ≠ MethodGet) ∨
     (∃ data, calls = [ExecuteIndex data] ∧ indexTemplate data = None) ∨
     (∃ data err, calls = [ExecuteIndex data; HttpError err 500] ∧
                  indexTemplate data = Some err) ∨
     (∃ data, calls = [ExecutePackage data] ∧ packageTemplate data = None) ∨
     (∃ data err, calls = [ExecutePackage data; HttpError err 500] ∧
                  packageTemplate data = Some err)).
Proof.
  unfold ServeHTTP. rewrite Lookup_best.
  destruct (match _ with Some (q, v) => (q, v, true) | None => _ end)
    as [[pkgName pkg] ok].
  cbn [mbind res_bind]. destruct ok; cbn [negb].
  - match goal with |- context [packageTemplate ?d] =>
      destruct (packageTemplate d) as [err|] eqn:E end;
      eexists; (split; [done |]); eauto 10.
  - destruct (ListByPath_total (packages h) (TrimPrefix (URLPath r) "/"))
      as [listed ->]. cbn [mbind res_bind].
    destruct (map_len listed =? 0); cbn [andb].
    + destruct (String.eqb_spec (Method r) MethodGet) as [E|E]; cbn [negb].
      * match goal with |- context [indexTemplate ?d] =>
          destruct (indexTemplate d) as [err|] eqn:E' end;
          eexists; (split; [done |]); eauto 10.
      * eexists; split; [done |]. by left.
    + match goal with |- context [indexTemplate ?d] =>
        destruct (indexTemplate d) as [err|] eqn:E' end;
        eexists; (split; [done |]); eauto 10.
Qed.

End handler_total.

Section handler_total_example.

(** X16 at the example handler and a request for a path no package is at,
    above or below. *)
Lemma ServeHTTP_answers_witness :
  ∃ calls,
    ServeHTTP range_nodes_enum no_error no_error example_handler
      (mkRequest "GET" "/nothing/here") = Done calls ∧
    ((calls = [NotFound] ∧ "GET" ≠ MethodGet) ∨
     (∃ data, calls = [ExecuteIndex data] ∧ no_error data = None) ∨
     (∃ data err, calls = [ExecuteIndex data; HttpError err 500] ∧
                  no_error data = Some err) ∨
     (∃ data, calls = [ExecutePackage data] ∧ no_error data = None) ∨
     (∃ data err, calls = [ExecutePackage data; HttpError err 500] ∧
                  no_error data = Some err)).
Proof.
  apply (ServeHTTP_answers range_nodes_enum range_nodes_enum_perm
           no_error no_error example_handler (mkRequest "GET" "/nothing/here")).
Defined.

End handler_total_example.

(** * Full paths: examples *)

Section full_path_examples.

Lemma range_enum_rev_perm (m : gmap string (pathTreeNode Z)) :
  range_enum_rev m ≡ₚ map_to_list m.
Proof. apply reverse_Permutation. Qed.

(** C1 fails where the first component is empty: after [Set("/a", 1)] the
    walk of [Lookup("/a")] ends at the node reached by the components [""]
    and ["a"], which carries the value; its full path is ["/a"], and
    [Lookup] reports it with the path ["/"], the [path] field [set] gave
    the node. *)
Theorem Lookup_leading_separator_path :
  ∃ t, Set_ zeroTree "/a" 1 = Done t ∧
    components "/a" = [""; "a"] ∧
    join [""; "a"] = "/a" ∧
    explicit (root t) [""; "a"] = Some 1 ∧
    Lookup_walk 0 t "/a" = ("/a", 1, true) ∧
    Lookup 0 t "/a" = Done ("/", 1, true) ∧
    Lookup 0 t "/a" ≠ Done (Lookup_walk 0 t "/a").
Proof.
  eexists. split; [vm_compute; reflexivity |].
  repeat split; try (vm_compute; reflexivity).
  vm_compute. discriminate.
Qed.



(** X17 at [TestPathTree_simple] and a path below ["foo/bar"]. *)
Lemma Lookup_full_path_walk_witness :
  Lookup 0 simple_tree "foo/bar/baz" =
  Done (Lookup_walk 0 simple_tree "foo/bar/baz").
Proof.
  apply (Lookup_full_path_walk 0 simple_ops simple_tree "foo/bar/baz").
  - vm_compute. reflexivity.
  - reflexivity.
Defined.

(** X18 at [TestPathTree_simple], ["foo"] and ["foo/"], with two orders. *)
Lemma trailing_separator_ignored_witness :
  Set_ simple_tree "foo/" 5 = Set_ simple_tree "foo" 5 ∧
  Lookup 0 simple_tree "foo/" = Lookup 0 simple_tree "foo" ∧
  (∀ ops, Assigns ops = Done simple_tree → keys_relative ops = true →
          ListByPath range_enum simple_tree "foo/" =
          ListByPath range_enum_rev simple_tree "foo") ∧
  (∀ h, has_slash h = false →
        pathTakeFirst (h +:+ "/") = Done (h, EmptyString)).
Proof.
  apply (trailing_separator_ignored 0 range_enum range_enum_rev
           range_enum_perm range_enum_rev_perm simple_tree "foo" 5).
  - discriminate.
  - reflexivity.
Defined.

End full_path_examples.
